(** * S3LocationSyncRatchet: a shallow embedding and its properties

    The development follows [S3LocationSyncRatchet] (the object-store
    location synchronizer): the configuration and its constructor, the key
    translation [key.replace(srcPrefix, dstPrefix)], the retrying
    [copyObject], the paginating [listObjects], the classification done by
    [compareSrcAndDst] and the orchestration in [startSyncing].

    Conventions of the embedding.
    - JavaScript numbers that the synchronizer only counts and compares
      ([Size], [Date.getTime()], [maxRetries], [maxNumThreads]) are integers
      of [Z]; [NaN], infinities and fractions are not represented.
    - Strings are [string]s (byte sequences). A field that may be
      [undefined] at run time is an [option].
    - An object used as a dictionary ([rval = {}] in [listObjects]) is a
      [gmap string _]; keys that collide with members of [Object.prototype]
      are not treated specially.
    - [async] code is a state-and-exception monad over the state of the
      object store; the trace of the requests issued to the store is kept
      next to it.

    Two more models follow the synchronizer: [Shared], in which the
    configuration is the object the caller passed and not a copy of it,
    and [Environment], the [EnvironmentService] that caches and retries
    the reads of an [EnvironmentServiceProvider]. *)

From stdpp Require Import gmap strings list fin_maps.
From Stdlib Require Import Ascii ZArith Lia DecimalString DecimalNat.

Local Open Scope string_scope.
Local Open Scope list_scope.
Local Open Scope Z_scope.

(** ** JavaScript strings *)

Module JS.

(** [strip pat s] is [Some rest] when [s = pat ++ rest]. *)
Fixpoint strip (pat s : string) : option string :=
  match pat, s with
  | EmptyString, _ => Some s
  | String a pat', String b s' =>
      if Ascii.eqb a b then strip pat' s' else None
  | String _ _, EmptyString => None
  end.

(** [startsWith s pat], as [String.prototype.startsWith]. *)
Definition startsWith (s pat : string) : bool :=
  match strip pat s with Some _ => true | None => false end.

(** The first occurrence of [pat] in [s] (what [indexOf] finds), given as the
    text before it and the text after it. *)
Fixpoint split_first (pat s : string) : option (string * string) :=
  match strip pat s with
  | Some rest => Some (EmptyString, rest)
  | None =>
      match s with
      | EmptyString => None
      | String c s' =>
          match split_first pat s' with
          | Some (before, after) => Some (String c before, after)
          | None => None
          end
      end
  end.

(** GetSubstitution of ECMA-262 for a string pattern: there are no captures,
    so only [$$], [$&], [$`] and [$'] are special in the replacement
    template; [$n] and [$<] stay as they are written. *)
Fixpoint GetSubstitution (matched before after template : string) : string :=
  match template with
  | EmptyString => EmptyString
  | String c r =>
      if Ascii.eqb c "$"%char then
        match r with
        | String d r' =>
            if Ascii.eqb d "$"%char then "$" +:+ GetSubstitution matched before after r'
            else if Ascii.eqb d "&"%char then matched +:+ GetSubstitution matched before after r'
            else if Ascii.eqb d "`"%char then before +:+ GetSubstitution matched before after r'
            else if Ascii.eqb d "'"%char then after +:+ GetSubstitution matched before after r'
            else String c (GetSubstitution matched before after r)
        | EmptyString => String c EmptyString
        end
      else String c (GetSubstitution matched before after r)
  end.

(** [s.replace(searchValue, replaceValue)] with two strings: only the first
    occurrence is replaced, and [s] is returned as it is when there is
    none. *)
Definition replace (s searchValue replaceValue : string) : string :=
  match split_first searchValue s with
  | None => s
  | Some (before, after) =>
      before +:+ GetSubstitution searchValue before after replaceValue +:+ after
  end.

(** [ToString] of a value that is a string or [undefined]. *)
Definition ToString (v : option string) : string :=
  match v with Some s => s | None => "undefined" end.

(** One element of [Array.prototype.join]: [undefined] is printed empty. *)
Definition join_elt (v : option string) : string :=
  match v with Some s => s | None => EmptyString end.

(** [[a, b].join('/')]. *)
Definition join2 (a b : option string) : string :=
  join_elt a +:+ "/" +:+ join_elt b.

(** Truthiness of a number that may be [undefined]. *)
Definition truthy (v : option Z) : bool :=
  match v with Some n => negb (n =? 0) | None => false end.

(** [a < b] where [b] may be [undefined] ([ToNumber(undefined)] is [NaN],
    and every comparison with [NaN] is false). *)
Definition lt_num (a : Z) (b : option Z) : bool :=
  match b with Some n => a <? n | None => false end.

Definition hex_digit (n : N) : ascii :=
  match n with
  | 0%N => "0" | 1%N => "1" | 2%N => "2" | 3%N => "3" | 4%N => "4"
  | 5%N => "5" | 6%N => "6" | 7%N => "7" | 8%N => "8" | 9%N => "9"
  | 10%N => "A" | 11%N => "B" | 12%N => "C" | 13%N => "D" | 14%N => "E"
  | _ => "F"
  end%char.

(** The characters [encodeURIComponent] leaves alone: letters, digits and
    [- _ . ! ~ * ' ( )]. *)
Definition uri_unreserved (c : ascii) : bool :=
  let n := N_of_ascii c in
  ((65 <=? n) && (n <=? 90) || (97 <=? n) && (n <=? 122) ||
   (48 <=? n) && (n <=? 57) ||
   bool_decide (n ∈ [45; 95; 46; 33; 126; 42; 39; 40; 41]))%N.

(** [encodeURIComponent] on the UTF-8 bytes of a string. *)
Fixpoint encodeURIComponent (s : string) : string :=
  match s with
  | EmptyString => EmptyString
  | String c r =>
      if uri_unreserved c then String c (encodeURIComponent r)
      else
        let n := N_of_ascii c in
        String "%"%char (String (hex_digit (n / 16)) (String (hex_digit (n mod 16))
          (encodeURIComponent r)))
  end.

End JS.

(** ** Data model *)

(** [interface S3Object]; [LastModified] is kept as its [getTime()]. *)
Record S3Object := mkS3Object {
  Key : string;
  ETag : string;
  Size : Z;
  LastModified : Z;
}.

#[global] Instance S3Object_eq_dec : EqDecision S3Object.
Proof. solve_decision. Defined.

(** [interface BucketCmpResult]. *)
Record BucketCmpResult := mkCmp {
  needCopy : list S3Object;
  existed : list S3Object;
  diff : list S3Object;
}.

(** An [AWS.S3] client handle. *)
Definition S3Client := nat.

(** [interface S3LocationSyncRatchetConfig]. The type declares the six
    location fields as required, but nothing checks them at run time, so
    each of them can be [undefined] in the object the constructor gets. *)
Record S3LocationSyncRatchetConfig := mkConfig {
  srcS3 : option S3Client;
  srcBucket : option string;
  srcPrefix : option string;
  dstS3 : option S3Client;
  dstBucket : option string;
  dstPrefix : option string;
  maxNumThreads : option Z;
  maxRetries : option Z;
}.

(** Values that can be thrown. *)
Inductive JSError :=
| TypeError (msg : string)
| AWSError (code : string)
| Error (msg : string).

#[global] Instance JSError_eq_dec : EqDecision JSError.
Proof. solve_decision. Defined.

(** ** The monad of asynchronous code

    A computation runs on a state, and either returns a value, throws (a
    rejected promise), or is cut off by the fuel that bounds its loops. *)

Inductive Outcome (A : Type) : Type :=
| Returned (a : A)
| Threw (e : JSError)
| Diverged.

Arguments Returned {A} a.
Arguments Threw {A} e.
Arguments Diverged {A}.

Definition M (St A : Type) : Type := St -> Outcome A * St.

Definition ret {St A} (a : A) : M St A := fun s => (Returned a, s).

Definition throw {St A} (e : JSError) : M St A := fun s => (Threw e, s).

Definition diverge {St A} : M St A := fun s => (Diverged, s).

Definition bind {St A B} (m : M St A) (k : A -> M St B) : M St B :=
  fun s =>
    match m s with
    | (Returned a, s') => k a s'
    | (Threw e, s') => (Threw e, s')
    | (Diverged, s') => (Diverged, s')
    end.

Notation "'let*' x ':=' m 'in' k" := (bind m (fun x => k))
  (at level 10, x binder, m at level 200, k at level 200).

(** [try { m } catch (err) { h err }]. *)
Definition try_catch {St A} (m : M St A) (h : JSError -> M St A) : M St A :=
  fun s =>
    match m s with
    | (Threw e, s') => h e s'
    | r => r
    end.

(** A promise that has been started and has settled: its result is kept,
    and [await] rethrows a rejection. *)
Definition settle {St A} (m : M St A) : M St (JSError + A) :=
  fun s =>
    match m s with
    | (Returned a, s') => (Returned (inr a), s')
    | (Threw e, s') => (Returned (inl e), s')
    | (Diverged, s') => (Diverged, s')
    end.

Definition await {St A} (p : JSError + A) : M St A :=
  match p with
  | inr a => ret a
  | inl e => throw e
  end.

(** A synchronous computation on local variables [l], run inside a
    computation on [St]. *)
Definition run_local {St L A} (m : M L A) (l : L) : M St (A * L) :=
  fun s =>
    match m l with
    | (Returned a, l') => (Returned (a, l'), s)
    | (Threw e, _) => (Threw e, s)
    | (Diverged, _) => (Diverged, s)
    end.

(** [while (cond) { body }] on the loop variables [l]; every evaluation of
    the condition uses one unit of fuel. *)
Fixpoint while {St L} (fuel : nat) (cond : L -> bool) (body : L -> M St L)
    (l : L) : M St L :=
  match fuel with
  | O => diverge
  | S n => if cond l then let* l' := body l in while n cond body l' else ret l
  end.

(** ** The object store *)

(** [ListObjectsV2Request]. *)
Record ListObjectsV2Request := mkListReq {
  lo_Bucket : option string;
  lo_Prefix : option string;
  lo_ContinuationToken : option string;
}.

(** An item of [ListObjectsV2Output.Contents] ([S3.Object]). *)
Record ObjectItem := mkItem {
  o_Key : string;
  o_LastModified : Z;
  o_ETag : string;
  o_Size : Z;
  o_StorageClass : string;
}.

(** [ListObjectsV2Output]; an absent [IsTruncated] is [false] and an absent
    [Contents] is the empty list. *)
Record ListObjectsV2Output := mkListOut {
  IsTruncated : bool;
  Contents : list ObjectItem;
  NextContinuationToken : option string;
}.

(** [CopyObjectRequest]. *)
Record CopyObjectRequest := mkCopyReq {
  co_CopySource : string;
  co_Bucket : option string;
  co_Key : string;
  co_MetadataDirective : string;
}.

(** [s3.getObject({ Bucket, Key }).createReadStream()]. *)
Record ReadStream := mkReadStream {
  rs_client : S3Client;
  rs_Bucket : option string;
  rs_Key : string;
}.

(** [PutObjectRequest]. *)
Record PutObjectRequest := mkPutReq {
  po_Bucket : option string;
  po_Key : string;
  po_Body : ReadStream;
  po_ContentLength : Z;
}.

#[global] Instance ListObjectsV2Request_eq_dec : EqDecision ListObjectsV2Request.
Proof. solve_decision. Defined.
#[global] Instance CopyObjectRequest_eq_dec : EqDecision CopyObjectRequest.
Proof. solve_decision. Defined.
#[global] Instance ReadStream_eq_dec : EqDecision ReadStream.
Proof. solve_decision. Defined.
#[global] Instance PutObjectRequest_eq_dec : EqDecision PutObjectRequest.
Proof. solve_decision. Defined.

(** The operations of an [AWS.S3] client that the synchronizer calls, as
    transitions of the state [W] of the stores. [inl e] is a rejected
    promise. *)
Class ObjectStore (W : Type) := {
  s3_listObjectsV2 :
    S3Client -> ListObjectsV2Request -> W -> (JSError + ListObjectsV2Output) * W;
  s3_copyObject : S3Client -> CopyObjectRequest -> W -> (JSError + unit) * W;
  s3_upload : S3Client -> PutObjectRequest -> W -> (JSError + unit) * W;
}.

(** A request issued to a store. *)
Inductive Call :=
| ListObjectsV2 (s3 : S3Client) (req : ListObjectsV2Request)
| CopyObject (s3 : S3Client) (req : CopyObjectRequest)
| Upload (s3 : S3Client) (req : PutObjectRequest).

#[global] Instance Call_eq_dec : EqDecision Call.
Proof. solve_decision. Defined.

(** A request together with its rejection, if it was rejected. *)
Record Event := mkEvent {
  ev_call : Call;
  ev_error : option JSError;
}.

#[global] Instance Event_eq_dec : EqDecision Event.
Proof. solve_decision. Defined.

(** The state the synchronizer runs on: the stores, and the requests issued
    so far, oldest first. *)
Record Env (W : Type) := mkEnv {
  world : W;
  trace : list Event;
}.

Arguments mkEnv {W} world trace.
Arguments world {W} e.
Arguments trace {W} e.

Definition error_of {A} (r : JSError + A) : option JSError :=
  match r with inl e => Some e | inr _ => None end.

(** Calling a method of a client that is [undefined] throws a [TypeError];
    otherwise the request goes to the store and is recorded. *)
Definition request {W A} (s3 : option S3Client) (mk : S3Client -> Call)
    (op : S3Client -> W -> (JSError + A) * W) : M (Env W) A :=
  fun env =>
    match s3 with
    | None =>
        (Threw (TypeError "Cannot read properties of undefined"), env)
    | Some c =>
        let '(r, w') := op c (world env) in
        let env' := mkEnv w' (trace env ++ [mkEvent (mk c) (error_of r)]) in
        match r with
        | inl e => (Threw e, env')
        | inr a => (Returned a, env')
        end
    end.

Section Store.

Context {W : Type} `{ObjectStore W}.

Definition listObjectsV2 (s3 : option S3Client) (req : ListObjectsV2Request)
  : M (Env W) ListObjectsV2Output :=
  request s3 (fun c => ListObjectsV2 c req) (fun c => s3_listObjectsV2 c req).

Definition copyObject_request (s3 : option S3Client) (req : CopyObjectRequest)
  : M (Env W) unit :=
  request s3 (fun c => CopyObject c req) (fun c => s3_copyObject c req).

Definition upload (s3 : option S3Client) (req : PutObjectRequest)
  : M (Env W) unit :=
  request s3 (fun c => Upload c req) (fun c => s3_upload c req).

(** [s3.getObject(...).createReadStream()]: nothing is read yet. *)
Definition createReadStream (s3 : option S3Client) (bucket : option string)
    (key : string) : M (Env W) ReadStream :=
  match s3 with
  | None => throw (TypeError "Cannot read properties of undefined")
  | Some c => ret (mkReadStream c bucket key)
  end.

End Store.

(** ** Helpers of the library that the synchronizer calls *)

(** Modelled from the spec: [RequireRatchet.notNullOrUndefined(ob, name)]
    lives in [common/require-ratchet], outside the sources at hand. By its
    name and its uses it throws when [ob] is [null] or [undefined], and
    does nothing otherwise. *)
Definition notNullOrUndefined {St A} (ob : option A) (name : string) : M St unit :=
  match ob with
  | None => throw (Error (name +:+ " may not be null or undefined"))
  | Some _ => ret tt
  end.

(** Modelled from the spec: [PromiseRatchet.runBoundedParallelSingleParam
    (promiseFn, params, context, maxConcurrent)] lives in
    [common/promise-ratchet], outside the sources at hand. Following
    sections 4.4 and 5 of the specification it runs [promiseFn] on every
    element of [params], at most [maxConcurrent] at a time, and collects
    the results. The order in which the calls complete is unspecified; the
    model takes the schedule that runs them one after the other in the
    order of [params], so [maxConcurrent] has no effect here. A call that
    throws ends the run with that error. *)
Fixpoint runBoundedParallelSingleParam {St A B} (promiseFn : A -> M St B)
    (params : list A) (maxConcurrent : option Z) : M St (list B) :=
  match params with
  | [] => ret []
  | p :: ps =>
      let* b := promiseFn p in
      let* bs := runBoundedParallelSingleParam promiseFn ps maxConcurrent in
      ret (b :: bs)
  end.

(** ** The synchronizer *)

(** [class S3LocationSyncRatchet]: its only field is [config]. *)
Record S3LocationSyncRatchet := mkRatchet {
  config : S3LocationSyncRatchetConfig;
}.

Definition set_maxNumThreads (v : Z) (c : S3LocationSyncRatchetConfig) :=
  mkConfig (srcS3 c) (srcBucket c) (srcPrefix c) (dstS3 c) (dstBucket c)
    (dstPrefix c) (Some v) (maxRetries c).

Definition set_maxRetries (v : Z) (c : S3LocationSyncRatchetConfig) :=
  mkConfig (srcS3 c) (srcBucket c) (srcPrefix c) (dstS3 c) (dstBucket c)
    (dstPrefix c) (maxNumThreads c) (Some v).

Definition set_srcPrefix (v : string) (c : S3LocationSyncRatchetConfig) :=
  mkConfig (srcS3 c) (srcBucket c) (Some v) (dstS3 c) (dstBucket c)
    (dstPrefix c) (maxNumThreads c) (maxRetries c).

Definition set_dstPrefix (v : string) (c : S3LocationSyncRatchetConfig) :=
  mkConfig (srcS3 c) (srcBucket c) (srcPrefix c) (dstS3 c) (dstBucket c)
    (Some v) (maxNumThreads c) (maxRetries c).

(** [constructor(config)]. [None] is a [null] or [undefined] argument. *)
Definition constructor {St} (config : option S3LocationSyncRatchetConfig)
  : M St S3LocationSyncRatchet :=
  let* _ := notNullOrUndefined config "config" in
  match config with
  | None => throw (TypeError "Cannot read properties of undefined")
  | Some config =>
      let config :=
        if negb (JS.truthy (maxNumThreads config))
        then set_maxNumThreads 15 config else config in
      let config :=
        if negb (JS.truthy (maxRetries config))
        then set_maxRetries 5 config else config in
      ret (mkRatchet config)
  end.

Definition updateSrcPrefix (this : S3LocationSyncRatchet) (prefix : string)
  : S3LocationSyncRatchet :=
  mkRatchet (set_srcPrefix prefix (config this)).

Definition updateDstPrefix (this : S3LocationSyncRatchet) (prefix : string)
  : S3LocationSyncRatchet :=
  mkRatchet (set_dstPrefix prefix (config this)).

(** [key.replace(this.config.srcPrefix, this.config.dstPrefix)], the
    expression both [copyObject] (line 96) and [compareSrcAndDst] (line 198)
    evaluate. *)
Definition dstKey_of (this : S3LocationSyncRatchet) (key : string) : string :=
  JS.replace key (JS.ToString (srcPrefix (config this)))
    (JS.ToString (dstPrefix (config this))).

(** The loop variables of [copyObject]. *)
Record CopyLoop := mkCopyLoop {
  completedCopying : bool;
  retries : Z;
}.

(** The loop variables of [listObjects]. *)
Record ListLoop := mkListLoop {
  more : bool;
  rval : gmap string S3Object;
  params : ListObjectsV2Request;
}.

(** The body of [_.each(response.Contents, ...)]. *)
Definition record_item (rval : gmap string S3Object) (obj : ObjectItem)
  : gmap string S3Object :=
  <[o_Key obj := mkS3Object (o_Key obj) (o_ETag obj) (o_Size obj) (o_LastModified obj)]> rval.

Definition push_needCopy (o : S3Object) (r : BucketCmpResult) :=
  mkCmp (needCopy r ++ [o]) (existed r) (diff r).
Definition push_existed (o : S3Object) (r : BucketCmpResult) :=
  mkCmp (needCopy r) (existed r ++ [o]) (diff r).
Definition push_diff (o : S3Object) (r : BucketCmpResult) :=
  mkCmp (needCopy r) (existed r) (diff r ++ [o]).

(** [Object.keys]. The order of the keys is the one of the map's listing;
    nothing below depends on it. *)
Definition Object_keys {A} (o : gmap string A) : list string :=
  (map_to_list o).*1.

Section Ratchet.

Context {W : Type} `{ObjectStore W}.

Variable this : S3LocationSyncRatchet.

(** The request of one attempt of [copyObject]. *)
Definition copy_attempt (key : string) (size : Z) (express : bool)
  : M (Env W) unit :=
  let dstKey := dstKey_of this key in
  if express then
    let params :=
      mkCopyReq
        (JS.encodeURIComponent (JS.join2 (srcBucket (config this)) (Some key)))
        (dstBucket (config this)) dstKey "COPY" in
    copyObject_request (dstS3 (config this)) params
  else
    let* body :=
      createReadStream (srcS3 (config this)) (srcBucket (config this)) key in
    let params := mkPutReq (dstBucket (config this)) dstKey body size in
    upload (dstS3 (config this)) params.

(** The condition of the [while] loop of [copyObject]. *)
Definition copy_loop_cond (l : CopyLoop) : bool :=
  negb (completedCopying l) && JS.lt_num (retries l) (maxRetries (config this)).

(** Its body: the [try] and the [catch]. *)
Definition copy_loop_body (key : string) (size : Z) (express : bool) (l : CopyLoop)
  : M (Env W) CopyLoop :=
  try_catch
    (let* _ := copy_attempt key size express in
     ret (mkCopyLoop true (retries l)))
    (fun err => ret (mkCopyLoop (completedCopying l) (retries l + 1))).

(** The loop of [copyObject], with the loop variables it ends on. *)
Definition copyObject_loop (fuel : nat) (key : string) (size : Z) (express : bool)
  : M (Env W) CopyLoop :=
  while fuel copy_loop_cond (copy_loop_body key size express) (mkCopyLoop false 0).

(** [copyObject(key, size, express)]: a [Promise<void>]. *)
Definition copyObject (fuel : nat) (key : string) (size : Z) (express : bool)
  : M (Env W) unit :=
  let* _ := copyObject_loop fuel key size express in
  ret tt.

(** The body of the [while] loop of [listObjects]. *)
Definition list_loop_body (s3 : option S3Client) (l : ListLoop) : M (Env W) ListLoop :=
  let* response := listObjectsV2 s3 (params l) in
  let more := IsTruncated response in
  let rval := foldl record_item (rval l) (Contents response) in
  let params :=
    if more
    then mkListReq (lo_Bucket (params l)) (lo_Prefix (params l))
           (NextContinuationToken response)
    else params l in
  ret (mkListLoop more rval params).

(** [listObjects(bucket, prefix, s3)]. *)
Definition listObjects (fuel : nat) (bucket prefix : option string)
    (s3 : option S3Client) : M (Env W) (gmap string S3Object) :=
  let* l :=
    while fuel more (list_loop_body s3)
      (mkListLoop true ∅ (mkListReq bucket prefix None)) in
  ret (rval l).

(** The function that [compareSrcAndDst] runs on every key of the source
    listing (lines 196 to 216). [srcObjs[key]] is defined for the keys of
    [Object.keys(srcObjs)]; were it not, reading [sObj.Size] would throw. *)
Definition compare_key (srcObjs dstObjs : gmap string S3Object) (key : string)
  : M BucketCmpResult unit :=
  fun rval =>
    match srcObjs !! key with
    | None => (Threw (TypeError "Cannot read properties of undefined"), rval)
    | Some sObj =>
        let dstKey := dstKey_of this key in
        match dstObjs !! dstKey with
        | None => (Returned tt, push_needCopy sObj rval)
        | Some dObj =>
            if negb (Size sObj =? Size dObj)
            then (Returned tt, push_diff sObj rval)
            else if LastModified sObj <=? LastModified dObj
            then (Returned tt, push_existed sObj rval)
            else (Returned tt, push_diff sObj rval)
        end
    end.

(** [compareSrcAndDst()] from line 189 on: the classification of two
    listings. *)
Definition classify (srcObjs dstObjs : gmap string S3Object)
  : M (Env W) BucketCmpResult :=
  let* r :=
    run_local
      (runBoundedParallelSingleParam (compare_key srcObjs dstObjs)
         (Object_keys srcObjs) (maxNumThreads (config this)))
      (mkCmp [] [] []) in
  ret (snd r).

(** [compareSrcAndDst()]. Both listings are started before either is
    awaited; the model runs the source listing first. *)
Definition compareSrcAndDst (fuel : nat) : M (Env W) BucketCmpResult :=
  let* getSrc :=
    settle (listObjects fuel (srcBucket (config this)) (srcPrefix (config this))
              (srcS3 (config this))) in
  let* getDst :=
    settle (listObjects fuel (dstBucket (config this)) (dstPrefix (config this))
              (dstS3 (config this))) in
  let* srcObjs := await getSrc in
  let* dstObjs := await getDst in
  classify srcObjs dstObjs.

Definition nonempty {A} (l : list A) : bool := (0 <? List.length l)%nat.
Definition is_empty {A} (l : list A) : bool := (List.length l =? 0)%nat.

(** The [COPYING] phase of [startSyncing] (lines 172 and 173). *)
Definition copyAll (fuel : nat) (cmpResult : BucketCmpResult) : M (Env W) unit :=
  let cp := fun obj : S3Object => copyObject fuel (Key obj) (Size obj) false in
  let* _ :=
    runBoundedParallelSingleParam cp (needCopy cmpResult)
      (maxNumThreads (config this)) in
  let* _ :=
    runBoundedParallelSingleParam cp (diff cmpResult)
      (maxNumThreads (config this)) in
  ret tt.

(** [startSyncing()]. *)
Definition startSyncing (fuel : nat) : M (Env W) bool :=
  let* cmpResult := compareSrcAndDst fuel in
  let* cmpResult :=
    if nonempty (needCopy cmpResult) || nonempty (diff cmpResult)
    then
      let* _ := copyAll fuel cmpResult in
      compareSrcAndDst fuel
    else ret cmpResult in
  ret (is_empty (needCopy cmpResult) && is_empty (diff cmpResult)).

End Ratchet.

(** ** A store that answers from a script

    The simplest client: the answers to the listing requests and to the
    copy and upload requests are fixed in advance and handed out in turn.
    It gives every sequence of pages and every sequence of failures. *)

Module Scripted.

Record World := mkWorld {
  listings : list (JSError + ListObjectsV2Output);
  writes : list (option JSError);
}.

Definition list_op (c : S3Client) (req : ListObjectsV2Request) (w : World)
  : (JSError + ListObjectsV2Output) * World :=
  match listings w with
  | [] => (inr (mkListOut false [] None), w)
  | r :: rs => (r, mkWorld rs (writes w))
  end.

Definition write_op (w : World) : (JSError + unit) * World :=
  match writes w with
  | [] => (inr tt, w)
  | Some e :: rs => (inl e, mkWorld (listings w) rs)
  | None :: rs => (inr tt, mkWorld (listings w) rs)
  end.

#[global] Instance store : ObjectStore World := {
  s3_listObjectsV2 := list_op;
  s3_copyObject := fun _ _ => write_op;
  s3_upload := fun _ _ => write_op;
}.

End Scripted.

(** ** An object store in memory

    Objects live at an address (client, bucket, key). A write stamps the
    object with the clock of the store. Requests fail when the fault script
    says so; listings are cut into pages of [S pageSize] items, and the
    continuation token is the offset of the next page, in decimal. *)

Module MemStore.

Record Stored := mkStored {
  st_ETag : string;
  st_Size : Z;
  st_LastModified : Z;
}.

Record World := mkWorld {
  objects : gmap (S3Client * string * string) Stored;
  clock : Z;
  faults : list bool;
  pageSize : nat;
}.

(** The next entry of the fault script; an exhausted script never fails. *)
Definition next_fault (w : World) : bool * World :=
  match faults w with
  | [] => (false, w)
  | f :: fs => (f, mkWorld (objects w) (clock w) fs (pageSize w))
  end.

Definition item_of (c : S3Client) (b pfx : string)
    (e : S3Client * string * string * Stored) : option ObjectItem :=
  let '(c', b', k, st) := e in
  if bool_decide (c' = c) && bool_decide (b' = b) && JS.startsWith k pfx
  then Some (mkItem k (st_LastModified st) (st_ETag st) (st_Size st) "STANDARD")
  else None.

(** All the objects of bucket [b] of client [c] under the prefix [pfx]. *)
Definition items (w : World) (c : S3Client) (b pfx : string) : list ObjectItem :=
  omap (item_of c b pfx) (map_to_list (objects w)).

Definition token_of (n : nat) : string :=
  NilEmpty.string_of_uint (Nat.to_uint n).

Definition offset_of (tok : option string) : option nat :=
  match tok with
  | None => Some 0%nat
  | Some t => Nat.of_uint <$> NilEmpty.uint_of_string t
  end.

Definition list_op (c : S3Client) (req : ListObjectsV2Request) (w : World)
  : (JSError + ListObjectsV2Output) * World :=
  let '(fail, w1) := next_fault w in
  if fail then (inl (AWSError "ServiceUnavailable"), w1)
  else
    match lo_Bucket req, offset_of (lo_ContinuationToken req) with
    | None, _ => (inl (AWSError "MissingRequiredParameter"), w1)
    | _, None => (inl (AWSError "InvalidArgument"), w1)
    | Some b, Some off =>
        let all := items w c b (JS.join_elt (lo_Prefix req)) in
        let n := S (pageSize w) in
        let truncated := (off + n <? List.length all)%nat in
        (inr (mkListOut truncated (take n (drop off all))
                (if truncated then Some (token_of (off + n)) else None)), w1)
    end.

(** Writing an object stamps it with the clock, which then advances. *)
Definition put (a : S3Client * string * string) (etag : string) (size : Z)
    (w : World) : World :=
  mkWorld (<[a := mkStored etag size (clock w)]> (objects w)) (clock w + 1)
    (faults w) (pageSize w).

(** [upload]: the body is read from its source object, which has to exist
    and to have the announced length. *)
Definition upload_op (c : S3Client) (req : PutObjectRequest) (w : World)
  : (JSError + unit) * World :=
  let '(fail, w1) := next_fault w in
  if fail then (inl (AWSError "ServiceUnavailable"), w1)
  else
    match po_Bucket req, rs_Bucket (po_Body req) with
    | Some b, Some sb =>
        match objects w1 !! (rs_client (po_Body req), sb, rs_Key (po_Body req)) with
        | None => (inl (AWSError "NoSuchKey"), w1)
        | Some src =>
            if st_Size src =? po_ContentLength req
            then (inr tt, put (c, b, po_Key req) (st_ETag src) (po_ContentLength req) w1)
            else (inl (AWSError "IncompleteBody"), w1)
        end
    | _, _ => (inl (AWSError "MissingRequiredParameter"), w1)
    end.

(** [copyObject]: the source is the object of the same client whose
    encoded path is [CopySource]. *)
Definition copy_op (c : S3Client) (req : CopyObjectRequest) (w : World)
  : (JSError + unit) * World :=
  let '(fail, w1) := next_fault w in
  if fail then (inl (AWSError "ServiceUnavailable"), w1)
  else
    match co_Bucket req with
    | None => (inl (AWSError "MissingRequiredParameter"), w1)
    | Some b =>
        let is_source (e : S3Client * string * string * Stored) :=
          let '(c', sb, k, _) := e in
          bool_decide (c' = c) &&
          bool_decide (JS.encodeURIComponent (sb +:+ "/" +:+ k) = co_CopySource req) in
        match List.find is_source (map_to_list (objects w1)) with
        | None => (inl (AWSError "NoSuchKey"), w1)
        | Some (_, src) =>
            (inr tt, put (c, b, co_Key req) (st_ETag src) (st_Size src) w1)
        end
    end.

#[global] Instance store : ObjectStore World := {
  s3_listObjectsV2 := list_op;
  s3_copyObject := copy_op;
  s3_upload := upload_op;
}.

(** What a complete listing of a location contains. *)
Definition view (w : World) (c : S3Client) (b pfx : string) : gmap string S3Object :=
  foldl record_item ∅ (items w c b pfx).

End MemStore.

(** ** Vocabulary of the statements *)

(** A replacement template without [$] is copied as it is. *)
Fixpoint no_dollar (s : string) : bool :=
  match s with
  | EmptyString => true
  | String c r => negb (Ascii.eqb c "$"%char) && no_dollar r
  end.

(** The three classes of section 4.2 of the specification. *)
Inductive Classification := NeedsCopy | Conflicting | Unchanged.

#[global] Instance Classification_eq_dec : EqDecision Classification.
Proof. solve_decision. Defined.

(** The rule of section 4.2, in the specification's words: absent at the
    destination, then size, then time. *)
Definition spec_classify (s : S3Object) (d : option S3Object) : Classification :=
  match d with
  | None => NeedsCopy
  | Some d =>
      if decide (Size s ≠ Size d) then Conflicting
      else if decide (LastModified s ≤ LastModified d) then Unchanged
      else Conflicting
  end.

(** The class of the entry [(k, s)] of the source listing, against the
    destination listing [dstObjs]. *)
Definition class_of (this : S3LocationSyncRatchet) (dstObjs : gmap string S3Object)
    (e : string * S3Object) : Classification :=
  spec_classify e.2 (dstObjs !! dstKey_of this e.1).

(** The records of the entries of class [c]. *)
Definition of_class (this : S3LocationSyncRatchet) (srcObjs dstObjs : gmap string S3Object)
    (c : Classification) : list S3Object :=
  (filter (fun e => class_of this dstObjs e = c) (map_to_list srcObjs)).*2.

(** The three lists made of the entries [es]. *)
Definition cmp_of (this : S3LocationSyncRatchet) (dstObjs : gmap string S3Object)
    (es : list (string * S3Object)) : BucketCmpResult :=
  mkCmp (filter (fun e => class_of this dstObjs e = NeedsCopy) es).*2
        (filter (fun e => class_of this dstObjs e = Unchanged) es).*2
        (filter (fun e => class_of this dstObjs e = Conflicting) es).*2.

(** A listing is keyed when every record sits under its own [Key]. *)
Definition keyed (m : gmap string S3Object) : Prop :=
  forall k o, m !! k = Some o -> Key o = k.

(** The request that one attempt of [copyObject(key, size, express)] sends,
    when both clients it needs are there. *)
Definition attempt_call (this : S3LocationSyncRatchet) (key : string) (size : Z)
    (express : bool) : option Call :=
  match dstS3 (config this) with
  | None => None
  | Some c =>
      if express then
        Some (CopyObject c
                (mkCopyReq
                   (JS.encodeURIComponent (JS.join2 (srcBucket (config this)) (Some key)))
                   (dstBucket (config this)) (dstKey_of this key) "COPY"))
      else
        match srcS3 (config this) with
        | None => None
        | Some sc =>
            Some (Upload c
                    (mkPutReq (dstBucket (config this)) (dstKey_of this key)
                       (mkReadStream sc (srcBucket (config this)) key) size))
        end
  end.

(** The key a request writes to. *)
Definition written_key (c : Call) : option string :=
  match c with
  | ListObjectsV2 _ _ => None
  | CopyObject _ req => Some (co_Key req)
  | Upload _ req => Some (po_Key req)
  end.

(** Whether a request is an express (server-side) copy. *)
Definition is_express (c : Call) : bool :=
  match c with CopyObject _ _ => true | _ => false end.

(** How many attempts the loop of [copyObject] can still make when
    [retries] is [r]. *)
Definition remaining_attempts (this : S3LocationSyncRatchet) (r : Z) : nat :=
  match maxRetries (config this) with
  | Some m => Z.to_nat (m - r)
  | None => 0%nat
  end.

(** The attempts a run of the loop has made: the failed ones are counted by
    [retries], and a completed copy is one more. *)
Definition attempts (l : CopyLoop) : Z :=
  retries l + (if completedCopying l then 1 else 0).

(** No request follows a request that succeeded. *)
Fixpoint stops_at_success (evs : list Event) : Prop :=
  match evs with
  | [] => True
  | ev :: rest => (ev_error ev = None -> rest = []) /\ stops_at_success rest
  end.

(** The requests of a run: what the trace has gained. *)
Definition issued {W} (before after : Env W) (evs : list Event) : Prop :=
  trace after = trace before ++ evs.

(** What the loop of [copyObject] can end on, from [retries = r] and no copy
    completed, having sent the requests [evs] under [fuel]: it never
    throws, and it is cut off only when the fuel is short. *)
Definition copy_loop_post (this : S3LocationSyncRatchet) (key : string) (size : Z)
    (express : bool) (r : Z) (fuel : nat) (evs : list Event)
    (o : Outcome CopyLoop) : Prop :=
  match o with
  | Returned l =>
      r <= retries l /\
      (Z.to_nat (attempts l - r) <= remaining_attempts this r)%nat /\
      ((0 < remaining_attempts this r)%nat -> r < attempts l) /\
      (is_Some (attempt_call this key size express) ->
         Z.of_nat (List.length evs) = attempts l - r) /\
      (completedCopying l = false -> Forall (fun ev => ev_error ev ≠ None) evs) /\
      (completedCopying l = true ->
         exists evs' ev, evs = evs' ++ [ev] /\ ev_error ev = None)
  | Threw _ => False
  | Diverged => (fuel <= remaining_attempts this r)%nat
  end.

(** The attempts [copyObject] can make at most. *)
Definition max_attempts (this : S3LocationSyncRatchet) : nat :=
  remaining_attempts this 0.

(** The requests [evs] are attempts to copy objects of [objs]. *)
Definition attempts_for (this : S3LocationSyncRatchet) (objs : list S3Object)
    (evs : list Event) : Prop :=
  Forall (fun ev => exists o, o ∈ objs /\
            attempt_call this (Key o) (Size o) false = Some (ev_call ev)) evs.

(** Every object of [objs] has an attempt among the requests [evs]. *)
Definition all_attempted (this : S3LocationSyncRatchet) (objs : list S3Object)
    (evs : list Event) : Prop :=
  forall o, o ∈ objs ->
    exists ev, ev ∈ evs /\
      attempt_call this (Key o) (Size o) false = Some (ev_call ev).

(** A function [status] reads the completion of a copy off what
    [copyObject] returned. *)
Definition reports_completion (status : Outcome unit -> bool) : Prop :=
  forall (this : S3LocationSyncRatchet) (fuel : nat) (key : string) (size : Z)
    (express : bool) (env : Env Scripted.World) (l : CopyLoop) (env' : Env Scripted.World),
    copyObject_loop this fuel key size express env = (Returned l, env') ->
    status (copyObject this fuel key size express env).1 = completedCopying l.

(** An outcome that is not an exception. *)
Definition not_thrown {A} (o : Outcome A) : Prop :=
  match o with Threw _ => False | _ => True end.

(** A small configuration for the examples: two stores, one bucket each. *)
Definition example_config : S3LocationSyncRatchetConfig :=
  mkConfig (Some 1%nat) (Some "srcb") (Some "src/")
    (Some 2%nat) (Some "dstb") (Some "dst/") None (Some 2).

Definition example_ratchet : S3LocationSyncRatchet := mkRatchet example_config.


(** A scripted store that accepts every write. *)
Definition steady_env : Env Scripted.World :=
  mkEnv (Scripted.mkWorld [] []) [].

(** A scripted store that rejects the next two writes. *)
Definition failing_env : Env Scripted.World :=
  mkEnv (Scripted.mkWorld [] [Some (AWSError "SlowDown"); Some (AWSError "SlowDown")]) [].

Definition example_a : S3Object := mkS3Object "src/a.txt" "e1" 10 9.
Definition example_b : S3Object := mkS3Object "src/b.txt" "e2" 20 5.


(** The answers of a store to the listing of [bucket] under [prefix] by
    client [c], followed from the continuation token [tok] in state [w]:
    the pages [outs] up to the first page that is not truncated, or up to
    a rejected request ([Some e]); [w'] is the state after the last
    request. *)
Inductive pages_of {W} `{ObjectStore W} (c : S3Client) (bucket prefix : option string)
  : option string -> W -> list ListObjectsV2Output -> option JSError -> W -> Prop :=
| pages_last tok w out w' :
    s3_listObjectsV2 c (mkListReq bucket prefix tok) w = (inr out, w') ->
    IsTruncated out = false ->
    pages_of c bucket prefix tok w [out] None w'
| pages_more tok w out w' outs r w'' :
    s3_listObjectsV2 c (mkListReq bucket prefix tok) w = (inr out, w') ->
    IsTruncated out = true ->
    pages_of c bucket prefix (NextContinuationToken out) w' outs r w'' ->
    pages_of c bucket prefix tok w (out :: outs) r w''
| pages_rejected tok w e w' :
    s3_listObjectsV2 c (mkListReq bucket prefix tok) w = (inl e, w') ->
    pages_of c bucket prefix tok w [] (Some e) w'.

(** All the items of a sequence of pages, in the order they came. *)
Definition items_of (outs : list ListObjectsV2Output) : list ObjectItem :=
  concat (Contents <$> outs).


(** A configuration lacks one of its six location fields. *)
Definition missing_required (c : S3LocationSyncRatchetConfig) : bool :=
  negb (bool_decide (is_Some (srcS3 c)) && bool_decide (is_Some (srcBucket c)) &&
        bool_decide (is_Some (srcPrefix c)) && bool_decide (is_Some (dstS3 c)) &&
        bool_decide (is_Some (dstBucket c)) && bool_decide (is_Some (dstPrefix c))).

(** The six location fields of two configurations are the same. *)
Definition same_locations (a b : S3LocationSyncRatchetConfig) : Prop :=
  srcS3 a = srcS3 b /\ srcBucket a = srcBucket b /\ srcPrefix a = srcPrefix b /\
  dstS3 a = dstS3 b /\ dstBucket a = dstBucket b /\ dstPrefix a = dstPrefix b.

(** A configuration object with no field at all. *)
Definition empty_config : S3LocationSyncRatchetConfig :=
  mkConfig None None None None None None None None.




(** The number [n], possibly absent, is not negative. *)
Definition not_negative (n : option Z) : Prop :=
  match n with Some v => 0 <= v | None => True end.

(** A configuration that asks for a negative number of retries. *)
Definition negative_retries_config : S3LocationSyncRatchetConfig :=
  set_maxRetries (-1) example_config.

(** The example ratchet with a destination prefix that has a [$$] in it. *)
Definition dollar_ratchet : S3LocationSyncRatchet :=
  updateDstPrefix example_ratchet "dst$$/".

(** Hoare triples on the monad: from a state in [P], the computation ends
    with an outcome and a state in [Q]. *)
Definition hoare {St A} (P : St -> Prop) (m : M St A)
    (Q : Outcome A -> St -> Prop) : Prop :=
  forall s, P s -> Q (m s).1 (m s).2.

(** A postcondition that asks the same of the state however the
    computation ends, and [R] of a returned value. *)
Definition ends_in {St A} (I : St -> Prop) (R : A -> Prop) : Outcome A -> St -> Prop :=
  fun o s => I s /\ match o with Returned a => R a | _ => True end.

(** ** Vocabulary for runs on the store in memory *)

(** [k] is the key of an object of the source location in the state [w]. *)
Definition source_object (this : S3LocationSyncRatchet) (w : MemStore.World)
    (k : string) : Prop :=
  exists sc sb st,
    srcS3 (config this) = Some sc /\ srcBucket (config this) = Some sb /\
    MemStore.objects w !! (sc, sb, k) = Some st /\
    JS.startsWith k (JS.join_elt (srcPrefix (config this))) = true.

(** The address the copy of the source key [k] is written to. *)
Definition target (this : S3LocationSyncRatchet) (k : string)
  : option (S3Client * string * string) :=
  match dstS3 (config this), dstBucket (config this) with
  | Some c, Some b => Some (c, b, dstKey_of this k)
  | _, _ => None
  end.

(** The address a request writes to. The synchronizer sends no request
    that deletes. *)
Definition request_target (c : Call) : option (S3Client * string * string) :=
  match c with
  | ListObjectsV2 _ _ => None
  | CopyObject c req => (fun b => (c, b, co_Key req)) <$> co_Bucket req
  | Upload c req => (fun b => (c, b, po_Key req)) <$> po_Bucket req
  end.

(** The state after [n] runs of [startSyncing], one after the other. *)
Fixpoint sync_runs (this : S3LocationSyncRatchet) (fuel n : nat)
    (env : Env MemStore.World) : Env MemStore.World :=
  match n with
  | O => env
  | S n => (startSyncing this fuel (sync_runs this fuel n env)).2
  end.

(** No object of the source location of [w] is copied to the address [a]. *)
Definition no_counterpart (this : S3LocationSyncRatchet) (w : MemStore.World)
    (a : S3Client * string * string) : Prop :=
  forall k, source_object this w k -> target this k ≠ Some a.

(** The record a listing gives for the object stored under [k]. *)
Definition listed_as (k : string) (st : MemStore.Stored) : S3Object :=
  mkS3Object k (MemStore.st_ETag st) (MemStore.st_Size st) (MemStore.st_LastModified st).

(** The address [a] still holds [v0], and none of the requests sent since
    the trace was [tr0] writes to it. *)
Definition untouched (a : S3Client * string * string) (v0 : option MemStore.Stored)
    (tr0 : list Event) (env : Env MemStore.World) : Prop :=
  MemStore.objects (world env) !! a = v0 /\
  exists evs, trace env = tr0 ++ evs /\
    Forall (fun ev => request_target (ev_call ev) ≠ Some a) evs.

(** Moreover the objects of the stores are those of [w0]. *)
Definition frozen (w0 : MemStore.World) (a : S3Client * string * string)
    (v0 : option MemStore.Stored) (tr0 : list Event) (env : Env MemStore.World) : Prop :=
  MemStore.objects (world env) = MemStore.objects w0 /\ untouched a v0 tr0 env.

(** The mapping [m] lists objects that [w0] has at the location, each under
    its key. *)
Definition lists_objects_of (w0 : MemStore.World) (s3 : option S3Client)
    (bucket prefix : option string) (m : gmap string S3Object) : Prop :=
  forall k o, m !! k = Some o ->
    exists c b st, s3 = Some c /\ bucket = Some b /\
      MemStore.objects w0 !! (c, b, k) = Some st /\
      JS.startsWith k (JS.join_elt prefix) = true /\ o = listed_as k st.

(** A check of [no_counterpart] that computes. *)
Definition no_counterpart_b (this : S3LocationSyncRatchet) (w : MemStore.World)
    (a : S3Client * string * string) : bool :=
  forallb
    (fun e : S3Client * string * string * MemStore.Stored =>
       let '(c, b, k, _) := e in
       negb (bool_decide (srcS3 (config this) = Some c) &&
             bool_decide (srcBucket (config this) = Some b) &&
             JS.startsWith k (JS.join_elt (srcPrefix (config this))) &&
             bool_decide (target this k = Some a)))
    (map_to_list (MemStore.objects w)).

(** The scenario of section 8 of the specification: two objects at the
    source, and at the destination one object that the source does not
    have. Listings come in pages of one item. *)
Definition scenario_world : MemStore.World :=
  MemStore.mkWorld
    (<[(1%nat, "srcb", "src/a.txt") := MemStore.mkStored "e1" 10 5]>
       (<[(1%nat, "srcb", "src/b.txt") := MemStore.mkStored "e2" 20 5]>
          (<[(2%nat, "dstb", "dst/c.txt") := MemStore.mkStored "e3" 7 1]> ∅)))
    100 [] 0.

Definition scenario_env : Env MemStore.World := mkEnv scenario_world [].








(** What a compare finds on the stores [w] when no listing fails: the
    classification of the view of the source against the view of the
    destination. *)
Definition compare_views (this : S3LocationSyncRatchet) (w : MemStore.World)
  : BucketCmpResult :=
  match srcS3 (config this), srcBucket (config this),
        dstS3 (config this), dstBucket (config this) with
  | Some sc, Some sb, Some dc, Some db =>
      cmp_of this
        (MemStore.view w dc db (JS.join_elt (dstPrefix (config this))))
        (map_to_list (MemStore.view w sc sb (JS.join_elt (srcPrefix (config this)))))
  | _, _, _, _ => mkCmp [] [] []
  end.



(** A backup of a whole bucket into a folder of the same bucket: the
    destination location lies inside the source location. *)
Definition backup_config : S3LocationSyncRatchetConfig :=
  mkConfig (Some 1%nat) (Some "bucket") (Some "")
    (Some 1%nat) (Some "bucket") (Some "backup/") None None.



(** A scripted run: the source lists one object, the destination lists
    nothing at first and the copy of the object afterwards. *)
Definition source_page : ListObjectsV2Output :=
  mkListOut false [mkItem "src/a.txt" 9 "e1" 10 "STANDARD"] None.
Definition empty_page : ListObjectsV2Output := mkListOut false [] None.
Definition copied_page : ListObjectsV2Output :=
  mkListOut false [mkItem "dst/a.txt" 50 "e1" 10 "STANDARD"] None.

Definition one_copy_env : Env Scripted.World :=
  mkEnv (Scripted.mkWorld
           [inr source_page; inr empty_page; inr source_page; inr copied_page] []) [].


(** The scenario with a source object stamped later than the clock of the
    store it is copied to. *)
Definition future_world : MemStore.World :=
  MemStore.mkWorld
    (<[(1%nat, "srcb", "src/a.txt") := MemStore.mkStored "e1" 10 500]> ∅) 100 [] 0.

(** The requests [evs] are listings: none of them writes. *)
Definition listing_only (evs : list Event) : Prop :=
  Forall (fun ev => written_key (ev_call ev) = None) evs.

(** Since the trace was [tr0], only listings have been requested. *)
Definition only_listed {W} (tr0 : list Event) (env : Env W) : Prop :=
  exists evs, trace env = tr0 ++ evs /\ listing_only evs.

(** ** A store that never finishes a listing

    Every page is reported as truncated, and no continuation token comes
    with it. *)

Module Endless.

Definition World := unit.

#[global] Instance store : ObjectStore World := {
  s3_listObjectsV2 := fun _ _ w => (inr (mkListOut true [] None), w);
  s3_copyObject := fun _ _ w => (inr tt, w);
  s3_upload := fun _ _ w => (inr tt, w);
}.

End Endless.

(** ** The configuration as a shared object

    [this.config = config] keeps a reference to the object the caller
    passed, and the constructor and the two [update...Prefix] methods
    write into that object. [Shared] models the configuration objects in
    a heap, each at its address; a synchronizer is the address it holds. *)

Module Shared.

(** The address of a configuration object, and the heap: the objects by
    their addresses. *)
Definition Addr : Type := nat.

Definition Heap : Type := gmap Addr S3LocationSyncRatchetConfig.

(** [class S3LocationSyncRatchet] with [config] a reference. *)
Record Ratchet := mkRatchetRef {
  config_ref : Addr;
}.

(** Reading the object at an address, and assigning to its fields. An
    address always holds an object in JavaScript; the [TypeError] is for
    a heap that does not have it. *)
Definition read (a : Addr) : M Heap S3LocationSyncRatchetConfig :=
  fun h =>
    match h !! a with
    | Some c => (Returned c, h)
    | None => (Threw (TypeError "Cannot read properties of undefined"), h)
    end.

Definition assign (a : Addr)
    (f : S3LocationSyncRatchetConfig -> S3LocationSyncRatchetConfig)
  : M Heap unit :=
  fun h =>
    match h !! a with
    | Some c => (Returned tt, <[a := f c]> h)
    | None => (Threw (TypeError "Cannot set properties of undefined"), h)
    end.

(** [constructor(config)], lines 73 to 85. *)
Definition constructor (config : option Addr) : M Heap Ratchet :=
  let* _ := notNullOrUndefined config "config" in
  match config with
  | None => throw (TypeError "Cannot read properties of undefined")
  | Some a =>
      let this := mkRatchetRef a in
      let* c := read (config_ref this) in
      let* _ :=
        if negb (JS.truthy (maxNumThreads c))
        then assign (config_ref this) (set_maxNumThreads 15) else ret tt in
      let* c := read (config_ref this) in
      let* _ :=
        if negb (JS.truthy (maxRetries c))
        then assign (config_ref this) (set_maxRetries 5) else ret tt in
      ret this
  end.

(** [updateSrcPrefix(prefix)] and [updateDstPrefix(prefix)]. *)
Definition updateSrcPrefix (this : Ratchet) (prefix : string)
  : M Heap unit :=
  assign (config_ref this) (set_srcPrefix prefix).

Definition updateDstPrefix (this : Ratchet) (prefix : string)
  : M Heap unit :=
  assign (config_ref this) (set_dstPrefix prefix).

(** The synchronizer as its other methods find it in the heap [h]. *)
Definition snapshot (h : Heap) (this : Ratchet)
  : option S3LocationSyncRatchet :=
  mkRatchet <$> h !! config_ref this.

(** Two synchronizers are built, one from the object at [a1] and one from
    the object at [a2], and the source prefix of the first is updated. *)
Definition build_two_update_first (a1 a2 : Addr) (prefix : string)
  : M Heap (Ratchet * Ratchet) :=
  let* r1 := constructor (Some a1) in
  let* r2 := constructor (Some a2) in
  let* _ := updateSrcPrefix r1 prefix in
  ret (r1, r2).

End Shared.

(** ** EnvironmentService

    [class EnvironmentService<T>] wraps an [EnvironmentServiceProvider<T>]
    and adds a cache of the reads and a retry loop. The provider is an
    interface with the one method [fetchConfig(name)]; here it is a
    transition on a state [P] of its own. A value of [T] is only tested
    for truthiness; [null] and [undefined] are [None]. *)

Module Environment.

(** What is known of a value of [T]: whether it is truthy. *)
Class JSValue (T : Type) := {
  truthy : T -> bool;
}.

(** [!v]. *)
Definition falsy {T} `{JSValue T} (v : option T) : bool :=
  match v with Some t => negb (truthy t) | None => true end.

(** [interface EnvironmentServiceProvider<T>]. *)
Record EnvironmentServiceProvider (P T : Type) := mkProvider {
  fetchConfig : string -> P -> (JSError + option T) * P;
}.

Arguments mkProvider {P T} fetchConfig.
Arguments fetchConfig {P T} e name p.

(** [interface EnvironmentServiceConfig], as
    [defaultEnvironmentServiceConfig] fills it. *)
Record EnvironmentServiceConfig := mkServiceConfig {
  maxRetries : option Z;
  backoffMultiplierMS : option Z;
}.

Definition defaultEnvironmentServiceConfig : EnvironmentServiceConfig :=
  mkServiceConfig (Some 3) (Some 500).

(** The fields [provider] and [cfg] of an [EnvironmentService]. *)
Record EnvironmentService (P T : Type) := mkService {
  provider : EnvironmentServiceProvider P T;
  cfg : EnvironmentServiceConfig;
}.

Arguments mkService {P T} provider cfg.
Arguments provider {P T} e.
Arguments cfg {P T} e.

(** What a service does that can be seen from outside: it asks the
    provider, and it waits. *)
Inductive Step :=
| Fetch (name : string) (error : option JSError)
| Wait (ms : option Z).

#[global] Instance Step_eq_dec : EqDecision Step.
Proof. solve_decision. Defined.

(** The state a service runs on: the state of the provider, its own
    [readPromiseCache] (a settled promise is its result), and the steps
    taken so far, oldest first. *)
Record State (P T : Type) := mkState {
  provider_state : P;
  readPromiseCache : gmap string (JSError + option T);
  steps : list Step;
}.

Arguments mkState {P T} provider_state readPromiseCache steps.
Arguments provider_state {P T} s.
Arguments readPromiseCache {P T} s.
Arguments steps {P T} s.

(** An argument that can be left out or be [null]. *)
Inductive Arg (A : Type) :=
| Undefined
| Null
| Given (a : A).

Arguments Undefined {A}.
Arguments Null {A}.
Arguments Given {A} a.

(** Modelled from its name and its uses: [PromiseRatchet.wait(ms)] lives
    in [common/promise-ratchet], outside the sources at hand. It resolves
    after [ms] milliseconds; the model records the call. *)
Definition wait {P T} (ms : option Z) : M (State P T) unit :=
  fun s =>
    (Returned tt,
     mkState (provider_state s) (readPromiseCache s) (steps s ++ [Wait ms])).

(** Modelled from its name: [ErrorRatchet.throwFormattedErr(fmt, ...args)]
    lives in [common/error-ratchet], outside the sources at hand. It throws
    an [Error] with the formatted message; the model keeps the format. *)
Definition throwFormattedErr {St A} (fmt : string) : M St A :=
  throw (Error fmt).

(** [a * b] where [b] may be [undefined] (the product is then [NaN]). *)
Definition times (a : Z) (b : option Z) : option Z :=
  (fun n => a * n) <$> b.

(** The loop variables of [getConfigUncached]. *)
Record FetchLoop (T : Type) := mkFetchLoop {
  tryCount : Z;
  rval : option T;
}.

Arguments mkFetchLoop {T} tryCount rval.
Arguments tryCount {T} f.
Arguments rval {T} f.

Section Service.

Context {P T : Type} `{JSValue T}.

(** [constructor(provider, cfg = defaultEnvironmentServiceConfig())]: the
    default is taken for an argument that is [undefined], not for
    [null]. *)
Definition constructor {St} (provider : option (EnvironmentServiceProvider P T))
    (cfg : Arg EnvironmentServiceConfig) : M St (EnvironmentService P T) :=
  let cfg :=
    match cfg with
    | Undefined => Some defaultEnvironmentServiceConfig
    | Null => None
    | Given c => Some c
    end in
  let* _ := notNullOrUndefined provider (JS.ToString None) in
  let* _ := notNullOrUndefined cfg (JS.ToString None) in
  match provider, cfg with
  | Some p, Some c => ret (mkService p c)
  | _, _ => throw (TypeError "Cannot read properties of undefined")
  end.

Variable this : EnvironmentService P T.

(** [await this.provider.fetchConfig(name)]. *)
Definition fetch (name : string) : M (State P T) (option T) :=
  fun s =>
    let '(r, p') := fetchConfig (provider this) name (provider_state s) in
    let s' := mkState p' (readPromiseCache s) (steps s ++ [Fetch name (error_of r)]) in
    match r with
    | inl e => (Threw e, s')
    | inr v => (Returned v, s')
    end.

(** The condition of the [while] loop of [getConfigUncached]. *)
Definition fetch_loop_cond (l : FetchLoop T) : bool :=
  falsy (rval l) && JS.lt_num (tryCount l) (maxRetries (cfg this)).

(** Its body: the [try] and the [catch]. *)
Definition fetch_loop_body (name : string) (l : FetchLoop T)
  : M (State P T) (FetchLoop T) :=
  try_catch
    (let* v := fetch name in
     ret (mkFetchLoop (tryCount l) v))
    (fun err =>
       let waitMS := times (tryCount l) (backoffMultiplierMS (cfg this)) in
       let* _ := wait waitMS in
       ret (mkFetchLoop (tryCount l + 1) (rval l))).

(** [getConfigUncached(name)]. *)
Definition getConfigUncached (fuel : nat) (name : string) : M (State P T) (option T) :=
  let* l :=
    while fuel fetch_loop_cond (fetch_loop_body name) (mkFetchLoop 1 None) in
  let* _ :=
    if falsy (rval l)
    then throwFormattedErr "Was unable to fetch config %s even after %d retries"
    else ret tt in
  ret (rval l).

(** [this.readPromiseCache.set(name, promise)]. *)
Definition cache_set (name : string) (p : JSError + option T) : M (State P T) unit :=
  fun s =>
    (Returned tt,
     mkState (provider_state s) (<[name := p]> (readPromiseCache s)) (steps s)).

(** [this.readPromiseCache.has(name)]. *)
Definition cache_has (name : string) : M (State P T) bool :=
  fun s => (Returned (bool_decide (is_Some (readPromiseCache s !! name))), s).

(** [return this.readPromiseCache.get(name)]: the promise of the
    [async] function follows the promise it returns. *)
Definition cache_get (name : string) : M (State P T) (option T) :=
  fun s =>
    match readPromiseCache s !! name with
    | Some p => await p s
    | None => (Returned None, s)
    end.

(** [getConfig(name)]. The promise of [getConfigUncached] is stored when
    it has settled. *)
Definition getConfig (fuel : nat) (name : string) : M (State P T) (option T) :=
  let* cached := cache_has name in
  let* _ :=
    if negb cached
    then
      let* p := settle (getConfigUncached fuel name) in
      cache_set name p
    else ret tt in
  cache_get name.

End Service.

(** A provider that answers from a script, then with [null]. *)
Definition scripted_provider {T}
  : EnvironmentServiceProvider (list (JSError + option T)) T :=
  mkProvider (fun _ answers =>
    match answers with
    | [] => (inr None, [])
    | r :: rest => (r, rest)
    end).

#[global] Instance string_value : JSValue string := {
  truthy := fun s => negb (String.eqb s "");
}.

End Environment.

(** ** Vocabulary of the further properties *)

(** [a] and [b] are the text before and after the leftmost occurrence of
    [p] in [s]. *)
Definition leftmost (p s a b : string) : Prop :=
  s = a +:+ p +:+ b /\
  forall a' b', s = a' +:+ p +:+ b' -> (String.length a <= String.length a')%nat.

(** The characters of an encoded URI component: the unreserved ones and
    the [%] of the escapes. *)
Fixpoint uri_safe (s : string) : bool :=
  match s with
  | EmptyString => true
  | String c r => (JS.uri_unreserved c || Ascii.eqb c "%"%char) && uri_safe r
  end.

(** Every character in order. *)
Definition all_ascii : list ascii := ascii_of_nat <$> seq 0 256.



(** The requests a run may send: the listing of the source location by
    the source client, the listing of the destination location by the
    destination client, and the streamed copy of a source key to its
    translated key in the destination bucket. *)
Definition sync_request (this : S3LocationSyncRatchet) (c : Call) : Prop :=
  match c with
  | ListObjectsV2 cl req =>
      (srcS3 (config this) = Some cl /\ lo_Bucket req = srcBucket (config this) /\
       lo_Prefix req = srcPrefix (config this)) \/
      (dstS3 (config this) = Some cl /\ lo_Bucket req = dstBucket (config this) /\
       lo_Prefix req = dstPrefix (config this))
  | Upload cl req =>
      dstS3 (config this) = Some cl /\ po_Bucket req = dstBucket (config this) /\
      srcS3 (config this) = Some (rs_client (po_Body req)) /\
      rs_Bucket (po_Body req) = srcBucket (config this) /\
      po_Key req = dstKey_of this (rs_Key (po_Body req))
  | CopyObject _ _ => False
  end.

(** Since the trace was [tr0], only such requests have been sent. *)
Definition only_sync_requests {W} (this : S3LocationSyncRatchet) (tr0 : list Event)
    (env : Env W) : Prop :=
  exists evs, trace env = tr0 ++ evs /\
    Forall (fun ev => sync_request this (ev_call ev)) evs.








(** The scenario with listings that fail now and then. *)
Definition faulty_world : MemStore.World :=
  MemStore.mkWorld (MemStore.objects scenario_world) 100
    [false; false; true; false; false; true] 0.

(** *** Vocabulary for the runs of an [EnvironmentService] *)

(** The steps of a run: what the list of steps has gained. *)
Definition took {P T} (before after : Environment.State P T)
    (evs : list Environment.Step) : Prop :=
  Environment.steps after = Environment.steps before ++ evs.

(** The retry schedule of [getConfigUncached] from [tryCount = i] on: a
    fetch is made only while [i < maxRetries]; a fetch that is answered
    leaves [i] as it is; a fetch that fails is followed by a wait of
    [i * backoffMultiplierMS] and counts one up. *)
Inductive schedule (name : string) (c : Environment.EnvironmentServiceConfig)
  : Z -> list Environment.Step -> Prop :=
| schedule_end i : schedule name c i []
| schedule_answer i rest :
    JS.lt_num i (Environment.maxRetries c) = true ->
    schedule name c i rest ->
    schedule name c i (Environment.Fetch name None :: rest)
| schedule_retry i e rest :
    JS.lt_num i (Environment.maxRetries c) = true ->
    schedule name c (i + 1) rest ->
    schedule name c i
      (Environment.Fetch name (Some e) ::
       Environment.Wait (Environment.times i (Environment.backoffMultiplierMS c)) ::
       rest).

(** A step is a fetch that failed. *)
Definition is_failure (s : Environment.Step) : bool :=
  match s with Environment.Fetch _ (Some _) => true | _ => false end.

(** The number of failed fetches among the steps. *)
Definition failures (evs : list Environment.Step) : nat :=
  List.length (List.filter is_failure evs).

(** The failed fetches [getConfigUncached] puts up with: one less than
    [maxRetries]. *)
Definition max_failures (c : Environment.EnvironmentServiceConfig) : nat :=
  match Environment.maxRetries c with
  | Some m => Z.to_nat (m - 1)
  | None => 0
  end.

(** A service with the default configuration on a scripted provider, and
    states of it: one where the provider fails twice, one where it fails
    once and then answers. *)
Definition example_service
  : Environment.EnvironmentService (list (JSError + option string)) string :=
  Environment.mkService Environment.scripted_provider
    Environment.defaultEnvironmentServiceConfig.

Definition failing_provider_state
  : Environment.State (list (JSError + option string)) string :=
  Environment.mkState [inl (AWSError "Throttled"); inl (AWSError "Throttled");
                       inr (Some "late")] ∅ [].

Definition recovering_provider_state
  : Environment.State (list (JSError + option string)) string :=
  Environment.mkState [inl (AWSError "Throttled"); inr (Some "value")] ∅ [].

(** A provider that finds nothing and says so with [null]. *)
Definition null_provider : Environment.EnvironmentServiceProvider unit string :=
  Environment.mkProvider (fun _ p => (inr None, p)).

(** A provider that is out of reach: every fetch fails. *)
Definition unreachable_provider : Environment.EnvironmentServiceProvider unit string :=
  Environment.mkProvider (fun _ p => (inl (AWSError "Unreachable"), p)).

(** A service state with an empty cache and no step taken. *)
Definition idle_state : Environment.State unit string :=
  Environment.mkState tt ∅ [].

(** * Properties *)

(** ** The monad *)

Section MonadFacts.

Context {St A B : Type}.

Lemma bind_Returned (m : M St A) (k : A -> M St B) s a s1 :
  m s = (Returned a, s1) -> bind m k s = k a s1.
Proof. unfold bind. by intros ->. Qed.


Lemma bind_Diverged (m : M St A) (k : A -> M St B) s s1 :
  m s = (Diverged, s1) -> bind m k s = (Diverged, s1).
Proof. unfold bind. by intros ->. Qed.

Lemma bind_inv_Returned (m : M St A) (k : A -> M St B) s b s2 :
  bind m k s = (Returned b, s2) ->
  exists a s1, m s = (Returned a, s1) /\ k a s1 = (Returned b, s2).
Proof.
  unfold bind. destruct (m s) as [[a|e|] s1]; intros Hk; try discriminate.
  by exists a, s1.
Qed.

End MonadFacts.

(** Case analysis on the outcome of the computation [m] run on [s]. *)
Ltac run_cases m s a s1 E :=
  destruct (m s) as [[a|a|] s1] eqn:E.

(** ** A Hoare logic for the monad *)

Section Hoare.

Context {St : Type}.

Lemma hoare_conseq {A} (P P' : St -> Prop) (m : M St A)
    (Q Q' : Outcome A -> St -> Prop) :
  hoare P' m Q' -> (forall s, P s -> P' s) -> (forall o s, Q' o s -> Q o s) ->
  hoare P m Q.
Proof. unfold hoare. auto. Qed.

Lemma hoare_ret {A} (I : St -> Prop) (R : A -> Prop) (a : A) :
  R a -> hoare I (ret a) (ends_in I R).
Proof. by intros Ha s Hs. Qed.

Lemma hoare_throw {A} (I : St -> Prop) (R : A -> Prop) (e : JSError) :
  hoare I (throw e) (ends_in I R).
Proof. by intros s Hs. Qed.

Lemma hoare_bind {A B} (I I' : St -> Prop) (R : A -> Prop) (R' : B -> Prop)
    (m : M St A) (k : A -> M St B) :
  hoare I m (ends_in I' R) ->
  (forall a, R a -> hoare I' (k a) (ends_in I' R')) ->
  hoare I (bind m k) (ends_in I' R').
Proof.
  intros Hm Hk s Hs. specialize (Hm s Hs). unfold bind.
  destruct (m s) as [[a|e|] s1]; simpl in *; destruct Hm as [HI HR]; [|done|done].
  by apply Hk.
Qed.

Lemma hoare_try_catch {A} (I I' : St -> Prop) (R : A -> Prop)
    (m : M St A) (h : JSError -> M St A) :
  hoare I m (ends_in I' R) ->
  (forall e, hoare I' (h e) (ends_in I' R)) ->
  hoare I (try_catch m h) (ends_in I' R).
Proof.
  intros Hm Hh s Hs. specialize (Hm s Hs). unfold try_catch.
  destruct (m s) as [[a|e|] s1]; simpl in *; destruct Hm as [HI HR]; [done| |done].
  by apply Hh.
Qed.

Lemma hoare_settle {A} (I I' : St -> Prop) (R : A -> Prop) (m : M St A) :
  hoare I m (ends_in I' R) ->
  hoare I (settle m)
    (ends_in I' (fun p => match p with inr a => R a | inl _ => True end)).
Proof.
  intros Hm s Hs. specialize (Hm s Hs). unfold settle.
  by destruct (m s) as [[a|e|] s1]; simpl in *; destruct Hm as [HI HR].
Qed.

Lemma hoare_await {A} (I : St -> Prop) (R : A -> Prop) (p : JSError + A) :
  match p with inr a => R a | inl _ => True end ->
  hoare I (await p) (ends_in I R).
Proof. intros Hp s Hs. by destruct p. Qed.

Lemma hoare_while {L} (I : St -> Prop) (R : L -> Prop) fuel (cond : L -> bool)
    (body : L -> M St L) :
  (forall l, R l -> hoare I (body l) (ends_in I R)) ->
  forall l, R l -> hoare I (while fuel cond body l) (ends_in I R).
Proof.
  intros Hbody. induction fuel as [|n IH]; intros l Hl; simpl.
  - by intros s Hs.
  - destruct (cond l); [|by apply hoare_ret].
    eapply hoare_bind; [by apply Hbody|]. apply IH.
Qed.

Lemma hoare_run_parallel {A B} (I : St -> Prop) (f : A -> M St B) (xs : list A) n :
  (forall x, x ∈ xs -> hoare I (f x) (ends_in I (fun _ => True))) ->
  hoare I (runBoundedParallelSingleParam f xs n) (ends_in I (fun _ => True)).
Proof.
  induction xs as [|x xs IH]; intros Hf; simpl.
  - by apply hoare_ret.
  - eapply hoare_bind; [apply Hf, list_elem_of_here|]. intros b _.
    eapply hoare_bind.
    + apply IH. intros y Hy. by apply Hf, list_elem_of_further.
    + intros bs _. by apply hoare_ret.
Qed.

End Hoare.

(** A request keeps an invariant of the environment when the store
    operation does, whatever it answers. *)
Lemma hoare_request {W A} (I : Env W -> Prop) (R : A -> Prop)
    (s3 : option S3Client) (mk : S3Client -> Call)
    (op : S3Client -> W -> (JSError + A) * W) :
  (forall c env, s3 = Some c -> I env ->
     I (mkEnv (op c (world env)).2
          (trace env ++ [mkEvent (mk c) (error_of (op c (world env)).1)])) /\
     match (op c (world env)).1 with inr a => R a | inl _ => True end) ->
  hoare I (request s3 mk op) (ends_in I R).
Proof.
  intros Hop env Henv. unfold request. destruct s3 as [c|]; [|done].
  specialize (Hop c env eq_refl Henv).
  by destruct (op c (world env)) as [[e|a] w'].
Qed.

(** ** Key translation *)

Lemma strip_app (p rest : string) : JS.strip p (p +:+ rest) = Some rest.
Proof.
  induction p as [|c p IH]; simpl; [done|]. by rewrite Ascii.eqb_refl.
Qed.

Lemma strip_Some (p s rest : string) : JS.strip p s = Some rest -> s = p +:+ rest.
Proof.
  revert s. induction p as [|c p IH]; intros s; simpl.
  - by intros [= ->].
  - destruct s as [|b s]; [done|].
    destruct (Ascii.eqb c b) eqn:E; [|done].
    apply Ascii.eqb_eq in E as ->. intros Hs. by rewrite (IH _ Hs).
Qed.

Lemma startsWith_app (p rest : string) : JS.startsWith (p +:+ rest) p = true.
Proof. unfold JS.startsWith. by rewrite strip_app. Qed.

Lemma startsWith_inv (s p : string) :
  JS.startsWith s p = true -> exists rest, s = p +:+ rest.
Proof.
  unfold JS.startsWith. destruct (JS.strip p s) as [rest|] eqn:E; [|done].
  intros _. exists rest. by apply strip_Some.
Qed.

Lemma GetSubstitution_no_dollar (matched before after t : string) :
  no_dollar t = true -> JS.GetSubstitution matched before after t = t.
Proof.
  induction t as [|c t IH]; simpl; [done|].
  intros [Hc Ht]%andb_prop. apply negb_true_iff in Hc. rewrite Hc.
  by rewrite IH.
Qed.

Lemma string_app_inj_l (p a b : string) : p +:+ a = p +:+ b -> a = b.
Proof. induction p as [|c p IH]; simpl; [done|]. intros [= Hp]. auto. Qed.

(** On a key that starts with the search string, [replace] with a
    [$]-free replacement is the substitution of the prefix. *)
Lemma replace_prefix (p d rest : string) :
  no_dollar d = true -> JS.replace (p +:+ rest) p d = d +:+ rest.
Proof.
  intros Hd. unfold JS.replace.
  assert (JS.split_first p (p +:+ rest) = Some (EmptyString, rest)) as ->.
  { destruct (p +:+ rest) eqn:E; simpl; rewrite <- ?E, strip_app; done. }
  simpl. by rewrite GetSubstitution_no_dollar.
Qed.

Lemma dstKey_of_prefix (this : S3LocationSyncRatchet) (p d rest : string) :
  srcPrefix (config this) = Some p ->
  dstPrefix (config this) = Some d ->
  no_dollar d = true ->
  dstKey_of this (p +:+ rest) = d +:+ rest.
Proof.
  intros Hp Hd Hnd. unfold dstKey_of. rewrite Hp, Hd. simpl.
  by apply replace_prefix.
Qed.

(** [replace] on some keys. *)
Example replace_prefix_example : JS.replace "src/a.txt" "src/" "dst/" = "dst/a.txt".
Proof. reflexivity. Qed.

Example replace_first_only : JS.replace "src/src/a" "src/" "dst/" = "dst/src/a".
Proof. reflexivity. Qed.

Example replace_no_match : JS.replace "other/a" "src/" "dst/" = "other/a".
Proof. reflexivity. Qed.

Example replace_dollar_patterns :
  JS.replace "x/src/a" "src/" "$&$'$`|$1$<" = "x/src/ax/|$1$<a".
Proof. reflexivity. Qed.

Example encodeURIComponent_example :
  JS.encodeURIComponent "b k/a+b.txt" = "b%20k%2Fa%2Bb.txt".
Proof. reflexivity. Qed.

(** ** The classification of [compareSrcAndDst] *)

Section Classify.

Context {W : Type} `{ObjectStore W}.

Variable this : S3LocationSyncRatchet.

Lemma of_class_filter (dstObjs : gmap string S3Object) (c : Classification)
    (e : string * S3Object) (l : list (string * S3Object)) :
  (filter (fun e => class_of this dstObjs e = c) (l ++ [e])).*2 =
  (filter (fun e => class_of this dstObjs e = c) l).*2 ++
  (if decide (class_of this dstObjs e = c) then [e.2] else []).
Proof.
  rewrite filter_app, fmap_app. f_equal.
  rewrite filter_cons, filter_nil. by case_decide.
Qed.

(** One call of the function on the key of an entry of the source listing
    appends the record to the list of its class. *)
Lemma compare_key_entry (srcObjs dstObjs : gmap string S3Object) k s rval :
  srcObjs !! k = Some s ->
  compare_key this srcObjs dstObjs k rval =
  (Returned tt,
   match class_of this dstObjs (k, s) with
   | NeedsCopy => push_needCopy s rval
   | Conflicting => push_diff s rval
   | Unchanged => push_existed s rval
   end).
Proof.
  intros Hs. unfold compare_key, class_of, spec_classify. rewrite Hs. simpl.
  destruct (dstObjs !! dstKey_of this k) as [d|]; [|done].
  destruct (decide (Size s ≠ Size d)) as [Hne|Heq].
  - apply Z.eqb_neq in Hne. by rewrite Hne.
  - apply dec_stable in Heq. rewrite Heq, Z.eqb_refl. simpl.
    destruct (decide (LastModified s ≤ LastModified d)) as [Hle|Hgt].
    + apply Z.leb_le in Hle. by rewrite Hle.
    + apply Z.leb_nle in Hgt. by rewrite Hgt.
Qed.

Lemma cmp_of_snoc (dstObjs : gmap string S3Object) es k s :
  match class_of this dstObjs (k, s) with
  | NeedsCopy => push_needCopy s (cmp_of this dstObjs es)
  | Conflicting => push_diff s (cmp_of this dstObjs es)
  | Unchanged => push_existed s (cmp_of this dstObjs es)
  end = cmp_of this dstObjs (es ++ [(k, s)]).
Proof.
  unfold cmp_of, push_needCopy, push_diff, push_existed. simpl.
  rewrite !of_class_filter. simpl.
  destruct (class_of this dstObjs (k, s)); repeat case_decide;
    try done; by rewrite ?app_nil_r.
Qed.

Lemma run_compare_keys (srcObjs dstObjs : gmap string S3Object)
    (l : list (string * S3Object)) n :
  Forall (fun e => srcObjs !! e.1 = Some e.2) l ->
  forall done_ : list (string * S3Object),
  exists us,
    runBoundedParallelSingleParam (compare_key this srcObjs dstObjs) l.*1 n
      (cmp_of this dstObjs done_) = (Returned us, cmp_of this dstObjs (done_ ++ l)).
Proof.
  intros Hl. induction Hl as [|[k s] l Hks Hl IH]; intros done_.
  - exists []. simpl. by rewrite app_nil_r.
  - simpl in Hks. simpl. unfold bind at 1.
    rewrite (compare_key_entry _ _ _ _ _ Hks), cmp_of_snoc.
    destruct (IH (done_ ++ [(k, s)])) as [us IHus].
    exists (tt :: us). erewrite bind_Returned; [|exact IHus].
    unfold ret. by rewrite <- app_assoc.
Qed.

Lemma map_to_list_lookups (m : gmap string S3Object) :
  Forall (fun e => m !! e.1 = Some e.2) (map_to_list m).
Proof.
  apply Forall_forall. intros [k s] Hin. by apply elem_of_map_to_list in Hin.
Qed.

(** The classification returns, leaves the state alone, and its three
    lists are the entries of the source listing of each class. *)
Lemma classify_lists (srcObjs dstObjs : gmap string S3Object) (env : Env W) :
  classify this srcObjs dstObjs env =
  (Returned (mkCmp (of_class this srcObjs dstObjs NeedsCopy)
                   (of_class this srcObjs dstObjs Unchanged)
                   (of_class this srcObjs dstObjs Conflicting)), env).
Proof.
  unfold classify, run_local, Object_keys, bind.
  destruct (run_compare_keys srcObjs dstObjs (map_to_list srcObjs)
              (maxNumThreads (config this)) (map_to_list_lookups srcObjs) [])
    as [us Hus].
  unfold cmp_of at 1 in Hus. rewrite !filter_nil in Hus. simpl in Hus.
  by rewrite Hus.
Qed.

End Classify.

Section ClassifyClaims.

Context {W : Type} `{ObjectStore W}.

Variable this : S3LocationSyncRatchet.

Lemma three_way_partition (dstObjs : gmap string S3Object)
    (es : list (string * S3Object)) :
  needCopy (cmp_of this dstObjs es) ++ existed (cmp_of this dstObjs es) ++
  diff (cmp_of this dstObjs es) ≡ₚ es.*2.
Proof.
  unfold cmp_of. simpl. induction es as [|e es IH]; [done|].
  rewrite !filter_cons, fmap_cons.
  destruct (class_of this dstObjs e) eqn:E; repeat case_decide; try done;
    rewrite ?fmap_cons; simpl.
  - by rewrite IH.
  - rewrite <- IH. rewrite !app_assoc. by rewrite <- Permutation_middle.
  - rewrite <- IH. by rewrite <- Permutation_middle.
Qed.

Lemma elem_of_of_class (srcObjs dstObjs : gmap string S3Object) c s :
  s ∈ of_class this srcObjs dstObjs c <->
  exists k, srcObjs !! k = Some s /\ class_of this dstObjs (k, s) = c.
Proof.
  unfold of_class. rewrite list_elem_of_fmap. split.
  - intros [[k s'] [-> [Hc Hin]%list_elem_of_filter]].
    exists k. split; [by apply elem_of_map_to_list|done].
  - intros [k [Hk Hc]]. exists (k, s). split; [done|].
    apply list_elem_of_filter. split; [done|]. by apply elem_of_map_to_list.
Qed.


End ClassifyClaims.

(** ** The Copy Executor *)

Section CopyExecutor.

Context {W : Type} `{ObjectStore W}.

Variable this : S3LocationSyncRatchet.

Lemma issued_refl (env : Env W) : issued env env [].
Proof. unfold issued. by rewrite app_nil_r. Qed.

Lemma issued_trans (e1 e2 e3 : Env W) evs1 evs2 :
  issued e1 e2 evs1 -> issued e2 e3 evs2 -> issued e1 e3 (evs1 ++ evs2).
Proof. unfold issued. intros H1 H2. by rewrite H2, H1, app_assoc. Qed.

(** One request: it is recorded, and it returns or throws. *)
Lemma request_cases {A} (c : S3Client) (mk : S3Client -> Call)
    (op : S3Client -> W -> (JSError + A) * W) (env : Env W) :
  (exists a env', request (Some c) mk op env = (Returned a, env') /\
     issued env env' [mkEvent (mk c) None]) \/
  (exists e env', request (Some c) mk op env = (Threw e, env') /\
     issued env env' [mkEvent (mk c) (Some e)]).
Proof.
  unfold request, issued. destruct (op c (world env)) as [[e|a] w'].
  - right. by eexists _, _.
  - left. by eexists _, _.
Qed.

(** One attempt either sends no request and throws (a client is missing),
    or sends the request [attempt_call] and returns or throws with it. *)
Lemma copy_attempt_cases key size express (env : Env W) :
  (attempt_call this key size express = None /\
   exists e, copy_attempt this key size express env = (Threw e, env)) \/
  (exists c, attempt_call this key size express = Some c /\
     ((exists env', copy_attempt this key size express env = (Returned tt, env') /\
         issued env env' [mkEvent c None]) \/
      (exists e env', copy_attempt this key size express env = (Threw e, env') /\
         issued env env' [mkEvent c (Some e)]))).
Proof.
  unfold copy_attempt, attempt_call, copyObject_request, upload, createReadStream.
  destruct express.
  - destruct (dstS3 (config this)) as [c|].
    + right. eexists. split; [done|].
      match goal with |- context [request (Some c) ?mk ?op env] =>
        destruct (request_cases c mk op env) as [(a & env' & Hr & Hi)|(e & env' & Hr & Hi)]
      end.
      * left. destruct a. eauto.
      * right. eauto.
    + left. split; [done|]. by eexists.
  - destruct (srcS3 (config this)) as [sc|].
    + destruct (dstS3 (config this)) as [c|].
      * right. eexists. split; [done|]. unfold bind, ret.
        match goal with |- context [request (Some c) ?mk ?op env] =>
          destruct (request_cases c mk op env) as [(a & env' & Hr & Hi)|(e & env' & Hr & Hi)]
        end.
        -- left. destruct a. eauto.
        -- right. eauto.
      * left. split; [by destruct (dstS3 (config this))|]. by eexists.
    + left. split; [by destruct (dstS3 (config this))|]. by eexists.
Qed.

Lemma lt_num_remaining (r : Z) :
  JS.lt_num r (maxRetries (config this)) = true <-> (0 < remaining_attempts this r)%nat.
Proof.
  unfold JS.lt_num, remaining_attempts.
  destruct (maxRetries (config this)) as [m|]; [|split; [done|lia]].
  rewrite Z.ltb_lt. lia.
Qed.

Lemma remaining_succ (r : Z) :
  (0 < remaining_attempts this r)%nat ->
  remaining_attempts this r = S (remaining_attempts this (r + 1)).
Proof.
  unfold remaining_attempts. destruct (maxRetries (config this)) as [m|]; lia.
Qed.

(** One turn of the loop: the attempt is skipped for want of a client, or
    its request succeeds, or its request fails. The body never throws. *)
Lemma copy_loop_body_cases key size express (r : Z) (env : Env W) :
  (attempt_call this key size express = None /\
   copy_loop_body this key size express (mkCopyLoop false r) env =
     (Returned (mkCopyLoop false (r + 1)), env)) \/
  (exists c env', attempt_call this key size express = Some c /\
     copy_loop_body this key size express (mkCopyLoop false r) env =
       (Returned (mkCopyLoop true r), env') /\
     issued env env' [mkEvent c None]) \/
  (exists c e env', attempt_call this key size express = Some c /\
     copy_loop_body this key size express (mkCopyLoop false r) env =
       (Returned (mkCopyLoop false (r + 1)), env') /\
     issued env env' [mkEvent c (Some e)]).
Proof.
  unfold copy_loop_body, try_catch, bind.
  destruct (copy_attempt_cases key size express env)
    as [[Hnone [e He]]|[c [Hc [[env' [Hr Hi]]|[e [env' [Hr Hi]]]]]]];
    rewrite ?He, ?Hr; simpl.
  - by left.
  - right; left. by exists c, env'.
  - right; right. by exists c, e, env'.
Qed.

Lemma copy_loop_spec key size express (fuel : nat) :
  forall (r : Z) (env : Env W),
  exists evs,
    issued env
      (while fuel (copy_loop_cond this) (copy_loop_body this key size express)
         (mkCopyLoop false r) env).2 evs /\
    Forall (fun ev => attempt_call this key size express = Some (ev_call ev)) evs /\
    (List.length evs <= remaining_attempts this r)%nat /\
    stops_at_success evs /\
    copy_loop_post this key size express r fuel evs
      (while fuel (copy_loop_cond this) (copy_loop_body this key size express)
         (mkCopyLoop false r) env).1.
Proof.
  induction fuel as [|n IH]; intros r env.
  { exists []. simpl. split_and!; auto using issued_refl with lia. }
  cbn [while].
  change (copy_loop_cond this (mkCopyLoop false r))
    with (JS.lt_num r (maxRetries (config this))).
  destruct (JS.lt_num r (maxRetries (config this))) eqn:Hlt.
  2: { exists []. simpl.
       assert (remaining_attempts this r = 0%nat) as Hrem.
       { destruct (remaining_attempts this r) eqn:E; [done|].
         assert (JS.lt_num r (maxRetries (config this)) = true) as Ht
           by (apply lt_num_remaining; lia).
         congruence. }
       unfold attempts. simpl.
       split_and!; auto using issued_refl with lia. }
  apply lt_num_remaining in Hlt. pose proof (remaining_succ r Hlt) as Hsucc.
  destruct (copy_loop_body_cases key size express r env)
    as [[Hnone Hb]|[(c & env' & Hc & Hb & Hi)|(c & e & env' & Hc & Hb & Hi)]];
    rewrite (bind_Returned _ _ _ _ _ Hb).
  - (* a client is missing: the attempt throws before any request *)
    destruct (IH (r + 1) env) as (evs & Hiss & Hall & Hlen & Hstop & Hpost).
    exists evs. split_and!; try done; [lia|].
    destruct (while n _ _ _ env).1 as [l| |]; simpl in *; [|done|lia].
    destruct Hpost as (H1 & H2 & H3 & H4 & H5 & H6).
    split_and!; try done; try lia.
    + unfold attempts in *. destruct (completedCopying l); lia.
    + rewrite Hnone. by intros [? ?].
  - (* the request succeeds: the loop ends *)
    exists [mkEvent c None].
    assert (Forall (fun ev => attempt_call this key size express = Some (ev_call ev))
              [mkEvent c None]) as Hall by (by constructor).
    destruct n as [|n]; simpl.
    + split_and!; try done; simpl; lia.
    + unfold attempts. simpl. split_and!; try done; simpl; try lia.
      intros _. by exists [], (mkEvent c None).
  - (* the request fails: one more retry *)
    destruct (IH (r + 1) env') as (evs & Hiss & Hall & Hlen & Hstop & Hpost).
    exists (mkEvent c (Some e) :: evs). split_and!.
    + apply (issued_trans _ _ _ _ _ Hi Hiss).
    + by constructor.
    + simpl. lia.
    + simpl. by split.
    + destruct (while n _ _ _ env').1 as [l| |]; simpl in *; [|done|lia].
      destruct Hpost as (H1 & H2 & H3 & H4 & H5 & H6).
      split_and!; try lia.
      * unfold attempts in *. destruct (completedCopying l); lia.
      * intros Hs. specialize (H4 Hs). lia.
      * intros Hf. constructor; [done|auto].
      * intros Ht. destruct (H6 Ht) as (evs' & ev & -> & Hev).
        by exists (mkEvent c (Some e) :: evs'), ev.
Qed.

(** With no attempt left the loop ends at once and sends nothing. *)
Lemma copy_loop_quiet key size express (fuel : nat) (r : Z) (env : Env W) :
  remaining_attempts this r = 0%nat ->
  (while fuel (copy_loop_cond this) (copy_loop_body this key size express)
     (mkCopyLoop false r) env).2 = env.
Proof.
  intros Hzero. destruct fuel as [|n]; [done|]. cbn [while].
  change (copy_loop_cond this (mkCopyLoop false r))
    with (JS.lt_num r (maxRetries (config this))).
  destruct (JS.lt_num r (maxRetries (config this))) eqn:Hlt; [|done].
  apply lt_num_remaining in Hlt. lia.
Qed.

End CopyExecutor.

Section CopyObject.

Context {W : Type} `{ObjectStore W}.

Variable this : S3LocationSyncRatchet.

Lemma copyObject_loop_run key size express fuel (env : Env W) :
  copyObject this fuel key size express env =
  match copyObject_loop this fuel key size express env with
  | (Returned _, env') => (Returned tt, env')
  | (Threw e, env') => (Threw e, env')
  | (Diverged, env') => (Diverged, env')
  end.
Proof. reflexivity. Qed.

(** [copyObject]: its requests, and how it ends. *)
Lemma copyObject_spec key size express fuel (env : Env W) :
  exists evs,
    issued env (copyObject this fuel key size express env).2 evs /\
    Forall (fun ev => attempt_call this key size express = Some (ev_call ev)) evs /\
    (List.length evs <= max_attempts this)%nat /\
    stops_at_success evs /\
    match (copyObject this fuel key size express env).1 with
    | Returned _ =>
        (0 < max_attempts this)%nat ->
        is_Some (attempt_call this key size express) -> evs ≠ []
    | Threw _ => False
    | Diverged => (fuel <= max_attempts this)%nat
    end.
Proof.
  rewrite copyObject_loop_run. unfold copyObject_loop, max_attempts.
  destruct (copy_loop_spec this key size express fuel 0 env)
    as (evs & Hiss & Hall & Hlen & Hstop & Hpost).
  exists evs.
  destruct (while fuel _ _ _ env) as [[l|e|] env']; simpl in *;
    split_and!; try done.
  destruct Hpost as (H1 & H2 & H3 & H4 & _).
  intros Hpos Hsome -> . specialize (H3 Hpos). specialize (H4 Hsome).
  simpl in H4. lia.
Qed.

(** The copies of a list of objects, run by the bounded-parallel helper:
    no copy throws, so every object of the list gets its turn. *)
Lemma run_copies fuel (n : option Z) (objs : list S3Object) (env : Env W) :
  exists evs,
    issued env
      (runBoundedParallelSingleParam
         (fun obj : S3Object => copyObject this fuel (Key obj) (Size obj) false)
         objs n env).2 evs /\
    attempts_for this objs evs /\
    match (runBoundedParallelSingleParam
             (fun obj : S3Object => copyObject this fuel (Key obj) (Size obj) false)
             objs n env).1 with
    | Returned _ =>
        (0 < max_attempts this)%nat ->
        forall o, o ∈ objs ->
          is_Some (attempt_call this (Key o) (Size o) false) ->
          exists ev, ev ∈ evs /\
            attempt_call this (Key o) (Size o) false = Some (ev_call ev)
    | Threw _ => False
    | Diverged => (fuel <= max_attempts this)%nat
    end.
Proof.
  revert env. induction objs as [|o objs IH]; intros env.
  { exists []. simpl. split_and!; [apply issued_refl|constructor|].
    intros _ o Ho. by apply elem_of_nil in Ho. }
  cbn [runBoundedParallelSingleParam].
  destruct (copyObject_spec (Key o) (Size o) false fuel env)
    as (evs1 & Hiss1 & Hall1 & _ & _ & Hend1).
  destruct (copyObject this fuel (Key o) (Size o) false env) as [[[]|e|] env1] eqn:E1;
    simpl in *; [|done|].
  2: { rewrite (bind_Diverged _ _ _ _ E1). exists evs1. split_and!; try done.
       eapply Forall_impl; [exact Hall1|]. intros ev Hev. exists o.
       split; [apply list_elem_of_here|done]. }
  rewrite (bind_Returned _ _ _ _ _ E1).
  destruct (IH env1) as (evs2 & Hiss2 & Hall2 & Hend2).
  exists (evs1 ++ evs2).
  assert (attempts_for this (o :: objs) (evs1 ++ evs2)) as Hfor.
  { apply Forall_app. split.
    - eapply Forall_impl; [exact Hall1|]. intros ev Hev. exists o.
      split; [apply list_elem_of_here|done].
    - eapply Forall_impl; [exact Hall2|]. intros ev (o' & Ho' & Hev).
      exists o'. split; [by apply list_elem_of_further|done]. }
  destruct (runBoundedParallelSingleParam _ objs n env1) as [[us|e|] env2] eqn:E2;
    simpl in *; [|done|].
  - rewrite (bind_Returned _ _ _ _ _ E2). simpl.
    split_and!; [by eapply issued_trans|done|].
    intros Hpos o' Ho' Hsome. apply elem_of_cons in Ho' as [->|Ho'].
    + specialize (Hend1 Hpos Hsome). destruct evs1 as [|ev evs1]; [done|].
      exists ev. split; [apply list_elem_of_here|].
      by apply Forall_cons in Hall1 as [? _].
    + destruct (Hend2 Hpos o' Ho' Hsome) as (ev & Hev & Hc).
      exists ev. split; [|done]. apply elem_of_app. by right.
  - rewrite (bind_Diverged _ _ _ _ E2). simpl.
    split_and!; [by eapply issued_trans|done|done].
Qed.

End CopyObject.

Section CopyClaims.

Context {W : Type} `{ObjectStore W}.

Variable this : S3LocationSyncRatchet.

(** The [COPYING] phase: the requests are attempts for the objects of the
    two lists, the phase never throws, and when it returns every object
    that can be attempted has been. *)
Lemma copyAll_spec fuel (cmp : BucketCmpResult) (env : Env W) :
  exists evs,
    issued env (copyAll this fuel cmp env).2 evs /\
    attempts_for this (needCopy cmp ++ diff cmp) evs /\
    match (copyAll this fuel cmp env).1 with
    | Returned _ =>
        (0 < max_attempts this)%nat ->
        is_Some (srcS3 (config this)) -> is_Some (dstS3 (config this)) ->
        all_attempted this (needCopy cmp ++ diff cmp) evs
    | Threw _ => False
    | Diverged => (fuel <= max_attempts this)%nat
    end.
Proof.
  unfold copyAll.
  destruct (run_copies this fuel (maxNumThreads (config this)) (needCopy cmp) env)
    as (evs1 & Hiss1 & Hfor1 & Hend1).
  destruct (runBoundedParallelSingleParam _ (needCopy cmp) _ env)
    as [[us1|e|] env1] eqn:E1; simpl in *; [|done|].
  2: { rewrite (bind_Diverged _ _ _ _ E1). exists evs1. split_and!; try done.
       eapply Forall_impl; [exact Hfor1|]. intros ev (o & Ho & Hev).
       exists o. split; [|done]. apply elem_of_app. by left. }
  rewrite (bind_Returned _ _ _ _ _ E1).
  destruct (run_copies this fuel (maxNumThreads (config this)) (diff cmp) env1)
    as (evs2 & Hiss2 & Hfor2 & Hend2).
  exists (evs1 ++ evs2).
  assert (attempts_for this (needCopy cmp ++ diff cmp) (evs1 ++ evs2)) as Hfor.
  { apply Forall_app. split.
    - eapply Forall_impl; [exact Hfor1|]. intros ev (o & Ho & Hev).
      exists o. split; [|done]. apply elem_of_app. by left.
    - eapply Forall_impl; [exact Hfor2|]. intros ev (o & Ho & Hev).
      exists o. split; [|done]. apply elem_of_app. by right. }
  destruct (runBoundedParallelSingleParam _ (diff cmp) _ env1)
    as [[us2|e|] env2] eqn:E2; simpl in *; [|done|].
  - rewrite (bind_Returned _ _ _ _ _ E2). simpl.
    split_and!; [by eapply issued_trans|done|].
    intros Hpos [sc Hsc] [dc Hdc] o Ho.
    assert (is_Some (attempt_call this (Key o) (Size o) false)) as Hsome.
    { unfold attempt_call. rewrite Hsc, Hdc. by eexists. }
    apply elem_of_app in Ho as [Ho|Ho].
    + destruct (Hend1 Hpos o Ho Hsome) as (ev & Hev & Hc).
      exists ev. split; [|done]. apply elem_of_app. by left.
    + destruct (Hend2 Hpos o Ho Hsome) as (ev & Hev & Hc).
      exists ev. split; [|done]. apply elem_of_app. by right.
  - rewrite (bind_Diverged _ _ _ _ E2). simpl.
    split_and!; [by eapply issued_trans|done|done].
Qed.


(** C3, as the code has it. Every error of a copy attempt is caught inside
    [copyObject]: whatever the store answers, [copyObject] does not throw,
    and with the fuel for its attempts it returns; what it returns is the
    same [void] whether the copy completed or the retries ran out. So the
    [COPYING] phase does not throw either, and when it returns every object
    of [needCopy] and [diff] has been attempted, whatever happened to the
    others (given at least one attempt per key and both clients). *)
Theorem copy_errors_stay_inside fuel key size express (cmp : BucketCmpResult)
    (env : Env W) :
  not_thrown (copyObject this fuel key size express env).1 /\
  ((max_attempts this < fuel)%nat ->
     (copyObject this fuel key size express env).1 = Returned tt) /\
  not_thrown (copyAll this fuel cmp env).1 /\
  ((max_attempts this < fuel)%nat ->
     (copyAll this fuel cmp env).1 = Returned tt /\
     ((0 < max_attempts this)%nat ->
      is_Some (srcS3 (config this)) -> is_Some (dstS3 (config this)) ->
      exists evs,
        issued env (copyAll this fuel cmp env).2 evs /\
        all_attempted this (needCopy cmp ++ diff cmp) evs)).
Proof.
  destruct (copyObject_spec this key size express fuel env)
    as (evs & _ & _ & _ & _ & Hend).
  destruct (copyAll_spec fuel cmp env) as (evs' & Hiss' & _ & Hend').
  split_and!.
  - by destruct (copyObject this fuel key size express env).1.
  - intros Hfuel.
    destruct (copyObject this fuel key size express env).1 as [[]| |]; [done|done|lia].
  - by destruct (copyAll this fuel cmp env).1.
  - intros Hfuel.
    destruct (copyAll this fuel cmp env).1 as [[]| |]; [|done|lia].
    split; [done|]. intros Hpos Hs Hd. exists evs'. auto.
Qed.

End CopyClaims.


Lemma copy_errors_stay_inside_witness :
  (max_attempts example_ratchet < 5)%nat /\
  (copyAll example_ratchet 5 (mkCmp [example_a] [] [example_b]) failing_env).1 = Returned tt /\
  exists evs,
    issued failing_env
      (copyAll example_ratchet 5 (mkCmp [example_a] [] [example_b]) failing_env).2 evs /\
    all_attempted example_ratchet [example_a; example_b] evs.
Proof.
  assert (max_attempts example_ratchet < 5)%nat as Hfuel by (vm_compute; lia).
  split; [exact Hfuel|].
  destruct (copy_errors_stay_inside example_ratchet 5 "src/a.txt" 10 false
              (mkCmp [example_a] [] [example_b]) failing_env)
    as (_ & _ & _ & Hall).
  destruct (Hall Hfuel) as [Hret Hatt]. split; [exact Hret|].
  apply Hatt; [vm_compute; lia|by eexists|by eexists].
Defined.

(** C3, as stated, fails: what [copyObject] returns does not tell whether
    the copy completed. A copy that succeeds at once and a copy that fails
    every attempt both return the same [void]. *)
Lemma copyObject_returns_no_status : ~ exists status, reports_completion status.
Proof.
  intros [status Hs].
  pose proof (Hs example_ratchet 5%nat "src/a.txt" 10 false steady_env
                (mkCopyLoop true 0) _ eq_refl) as H1.
  pose proof (Hs example_ratchet 5%nat "src/a.txt" 10 false failing_env
                (mkCopyLoop false 2) _ eq_refl) as H2.
  vm_compute in H1, H2. congruence.
Qed.

(** ** The requests of a compare *)

Section CompareRequests.

Context {W : Type} `{ObjectStore W}.

Variable this : S3LocationSyncRatchet.

(** The classification sends no request and changes nothing; what it
    classifies are records of the source listing. *)
Lemma classify_hoare (I : Env W -> Prop) (srcObjs dstObjs : gmap string S3Object) :
  hoare I (classify this srcObjs dstObjs)
    (ends_in I (fun c => forall o, o ∈ needCopy c ++ existed c ++ diff c ->
                  exists k, srcObjs !! k = Some o)).
Proof.
  intros env Henv. rewrite classify_lists. split; [done|]. simpl.
  intros o Ho. rewrite !elem_of_app in Ho.
  destruct Ho as [Ho|[Ho|Ho]]; apply elem_of_of_class in Ho as (k & Hk & _); eauto.
Qed.

Lemma listObjects_only_lists tr0 fuel bucket prefix s3 :
  hoare (only_listed (W:=W) tr0) (listObjects fuel bucket prefix s3)
    (ends_in (only_listed tr0) (fun _ => True)).
Proof.
  unfold listObjects.
  eapply hoare_bind with (R := fun _ => True); [|intros; by apply hoare_ret].
  apply hoare_while; [|done]. intros l _. unfold list_loop_body.
  eapply hoare_bind with (R := fun _ => True); [|intros; by apply hoare_ret].
  unfold listObjectsV2. apply hoare_request. intros c env _ (evs & Htr & Hall).
  split; [|by destruct (s3_listObjectsV2 _ _ _).1].
  exists (evs ++ [mkEvent (ListObjectsV2 c (params l))
                    (error_of (s3_listObjectsV2 c (params l) (world env)).1)]).
  simpl. split; [by rewrite Htr, app_assoc|].
  apply Forall_app. split; [done|]. by constructor.
Qed.

Lemma compare_only_lists tr0 fuel :
  hoare (only_listed (W:=W) tr0) (compareSrcAndDst this fuel)
    (ends_in (only_listed tr0) (fun _ => True)).
Proof.
  unfold compareSrcAndDst.
  eapply hoare_bind; [apply hoare_settle, listObjects_only_lists|]. intros getSrc _.
  eapply hoare_bind; [apply hoare_settle, listObjects_only_lists|]. intros getDst _.
  eapply hoare_bind; [by apply (hoare_await _ (fun _ => True)); destruct getSrc|].
  intros srcObjs _.
  eapply hoare_bind; [by apply (hoare_await _ (fun _ => True)); destruct getDst|].
  intros dstObjs _.
  eapply hoare_conseq; [apply classify_hoare|done|].
  intros o env [Henv _]. split; [done|]. by destruct o.
Qed.

(** A compare sends listing requests only. *)
Lemma compare_requests fuel (env : Env W) :
  exists evs,
    issued env (compareSrcAndDst this fuel env).2 evs /\ listing_only evs.
Proof.
  destruct (compare_only_lists (trace env) fuel env) as [Hev _]; [|done].
  exists []. split; [by rewrite app_nil_r|constructor].
Qed.

End CompareRequests.

(** ** The Sync Orchestrator *)

Section Orchestrator.

Context {W : Type} `{ObjectStore W}.

Variable this : S3LocationSyncRatchet.








End Orchestrator.

(** ** The Location Lister *)

Section Lister.

Context {W : Type} `{ObjectStore W}.

Variable this : S3LocationSyncRatchet.

Lemma record_items_app (acc : gmap string S3Object) (xs ys : list ObjectItem) :
  foldl record_item acc (xs ++ ys) = foldl record_item (foldl record_item acc xs) ys.
Proof. apply foldl_app. Qed.

(** Every item that went into the mapping has an entry under its key, and
    entries sit under their own key. *)
Lemma record_items_lookup (xs : list ObjectItem) (acc : gmap string S3Object) :
  keyed acc ->
  keyed (foldl record_item acc xs) /\
  (forall k, is_Some (acc !! k) -> is_Some (foldl record_item acc xs !! k)) /\
  (forall x, x ∈ xs -> is_Some (foldl record_item acc xs !! o_Key x)).
Proof.
  revert acc. induction xs as [|x xs IH]; intros acc Hacc; simpl.
  { split_and!; [done|done|]. intros x Hx. by apply elem_of_nil in Hx. }
  assert (keyed (record_item acc x)) as Hk.
  { intros k o. unfold record_item. rewrite lookup_insert.
    case_decide; [|by apply Hacc]. by intros [= <-]. }
  destruct (IH _ Hk) as (IH1 & IH2 & IH3). split_and!; [done| |].
  - intros k Hs. apply IH2. unfold record_item. rewrite lookup_insert.
    by case_decide.
  - intros y [->|Hy]%elem_of_cons; [|by apply IH3].
    apply IH2. unfold record_item. by rewrite lookup_insert_eq.
Qed.


Lemma list_loop_body_run (c : S3Client) (l : ListLoop) (env : Env W) :
  list_loop_body (Some c) l env =
  match s3_listObjectsV2 c (params l) (world env) with
  | (inr out, w') =>
      (Returned
         (mkListLoop (IsTruncated out) (foldl record_item (rval l) (Contents out))
            (if IsTruncated out
             then mkListReq (lo_Bucket (params l)) (lo_Prefix (params l))
                    (NextContinuationToken out)
             else params l)),
       mkEnv w' (trace env ++ [mkEvent (ListObjectsV2 c (params l)) None]))
  | (inl e, w') =>
      (Threw e, mkEnv w' (trace env ++ [mkEvent (ListObjectsV2 c (params l)) (Some e)]))
  end.
Proof.
  unfold list_loop_body, listObjectsV2, request, bind.
  by destruct (s3_listObjectsV2 c (params l) (world env)) as [[e|out] w'].
Qed.

(** One turn of the loop of [listObjects]. *)
Lemma list_loop_step (c : S3Client) n (l : ListLoop) (env : Env W) :
  more l = true ->
  while (S n) more (list_loop_body (Some c)) l env =
  match s3_listObjectsV2 c (params l) (world env) with
  | (inr out, w') =>
      while n more (list_loop_body (Some c))
        (mkListLoop (IsTruncated out) (foldl record_item (rval l) (Contents out))
           (if IsTruncated out
            then mkListReq (lo_Bucket (params l)) (lo_Prefix (params l))
                   (NextContinuationToken out)
            else params l))
        (mkEnv w' (trace env ++ [mkEvent (ListObjectsV2 c (params l)) None]))
  | (inl e, w') =>
      (Threw e, mkEnv w' (trace env ++ [mkEvent (ListObjectsV2 c (params l)) (Some e)]))
  end.
Proof.
  intros Hmore. cbn [while]. rewrite Hmore. unfold bind.
  rewrite list_loop_body_run.
  by destruct (s3_listObjectsV2 c (params l) (world env)) as [[e|out] w'].
Qed.

(** The loop fetches the pages the store hands out, to the last. *)
Lemma list_loop_complete (c : S3Client) bucket prefix tok w outs r w' :
  pages_of c bucket prefix tok w outs r w' ->
  forall fuel acc tr, (List.length outs < fuel)%nat ->
  exists env',
    world env' = w' /\
    match r with
    | None =>
        exists l,
          while fuel more (list_loop_body (Some c))
            (mkListLoop true acc (mkListReq bucket prefix tok)) (mkEnv w tr) =
            (Returned l, env') /\
          rval l = foldl record_item acc (items_of outs)
    | Some e =>
        while fuel more (list_loop_body (Some c))
          (mkListLoop true acc (mkListReq bucket prefix tok)) (mkEnv w tr) =
          (Threw e, env')
    end.
Proof.
  induction 1 as [tok w out w' Hreq Hlast|tok w out w' outs r w'' Hreq Hmore _ IH
                 |tok w e w' Hreq]; intros fuel acc tr Hfuel; simpl in Hfuel.
  - destruct fuel as [|[|n]]; [lia|lia|].
    eexists. split; [|eexists; split].
    2: { rewrite list_loop_step by done. simpl. rewrite Hreq, Hlast. reflexivity. }
    + done.
    + simpl. unfold items_of. simpl. by rewrite app_nil_r.
  - destruct fuel as [|n]; [lia|].
    destruct (IH n (foldl record_item acc (Contents out))
                (tr ++ [mkEvent (ListObjectsV2 c (mkListReq bucket prefix tok)) None]))
      as (env' & Hw & Hrun); [lia|].
    exists env'. split; [done|].
    destruct r as [e|].
    + rewrite list_loop_step by done. simpl. rewrite Hreq, Hmore. exact Hrun.
    + destruct Hrun as (l & Hrun & Hrval). exists l. split.
      * rewrite list_loop_step by done. simpl. rewrite Hreq, Hmore. exact Hrun.
      * rewrite Hrval. unfold items_of. simpl. by rewrite record_items_app.
  - destruct fuel as [|n]; [lia|].
    eexists. split; [|rewrite list_loop_step by done; simpl; rewrite Hreq; reflexivity].
    done.
Qed.

(** Whatever the loop ends on, it has followed the pages of the store: it
    returns only after a page that is not truncated, with all the items
    fetched, and it throws what the store rejected a page with. *)
Lemma list_loop_sound (c : S3Client) bucket prefix fuel :
  forall tok acc (env : Env W),
  match while fuel more (list_loop_body (Some c))
          (mkListLoop true acc (mkListReq bucket prefix tok)) env with
  | (Returned l, env') =>
      exists outs,
        pages_of c bucket prefix tok (world env) outs None (world env') /\
        rval l = foldl record_item acc (items_of outs)
  | (Threw e, env') =>
      exists outs, pages_of c bucket prefix tok (world env) outs (Some e) (world env')
  | (Diverged, _) => True
  end.
Proof.
  induction fuel as [|n IH]; intros tok acc env; [done|].
  rewrite list_loop_step by done. simpl.
  destruct (s3_listObjectsV2 c (mkListReq bucket prefix tok) (world env))
    as [[e|out] w'] eqn:Hreq.
  { exists []. by apply pages_rejected. }
  destruct (IsTruncated out) eqn:Hmore.
  - specialize (IH (NextContinuationToken out) (foldl record_item acc (Contents out))
                  (mkEnv w' (trace env ++
                     [mkEvent (ListObjectsV2 c (mkListReq bucket prefix tok)) None]))).
    destruct (while n _ _ _ _) as [[l|e|] env']; [| |done].
    + destruct IH as (outs & Hp & Hr). exists (out :: outs). split.
      * by eapply pages_more.
      * rewrite Hr. unfold items_of. simpl. by rewrite record_items_app.
    + destruct IH as (outs & Hp). exists (out :: outs). by eapply pages_more.
  - destruct n as [|n]; [done|]. simpl. exists [out]. split.
    + by apply pages_last.
    + unfold items_of. simpl. by rewrite app_nil_r.
Qed.


End Lister.


(** ** The listings a compare classifies *)

Section CompareListings.

Context {W : Type} `{ObjectStore W}.

Variable this : S3LocationSyncRatchet.

(** Every mapping [listObjects] returns is keyed. *)
Lemma listObjects_keyed fuel bucket prefix s3 :
  hoare (fun _ : Env W => True) (listObjects fuel bucket prefix s3)
    (ends_in (fun _ => True) keyed).
Proof.
  unfold listObjects.
  eapply hoare_bind with (R := fun l => keyed (rval l)).
  2: { intros l Hl. by apply hoare_ret. }
  apply hoare_while; [|by intros k o].
  intros l Hl. unfold list_loop_body.
  eapply hoare_bind with (R := fun _ => True).
  - intros env _. split; [done|]. by destruct (listObjectsV2 _ _ _).1.
  - intros out _. apply hoare_ret. simpl.
    by destruct (record_items_lookup (Contents out) (rval l) Hl) as (Hk & _).
Qed.

(** What a compare returns is the classification, by the rule of section
    4.2, of a keyed source listing against a keyed destination listing. *)
Lemma compareSrcAndDst_classifies fuel (env env' : Env W) c :
  compareSrcAndDst this fuel env = (Returned c, env') ->
  exists srcObjs dstObjs,
    keyed srcObjs /\ keyed dstObjs /\
    c = cmp_of this dstObjs (map_to_list srcObjs).
Proof.
  intros Hrun.
  assert (hoare (fun _ : Env W => True) (compareSrcAndDst this fuel)
            (ends_in (fun _ => True)
               (fun c => exists srcObjs dstObjs, keyed srcObjs /\ keyed dstObjs /\
                  c = cmp_of this dstObjs (map_to_list srcObjs)))) as Hh.
  { unfold compareSrcAndDst.
    eapply hoare_bind; [apply hoare_settle, listObjects_keyed|]. intros getSrc HgetSrc.
    eapply hoare_bind; [apply hoare_settle, listObjects_keyed|]. intros getDst HgetDst.
    eapply hoare_bind; [apply hoare_await, HgetSrc|]. intros srcObjs Hsrc.
    eapply hoare_bind; [apply hoare_await, HgetDst|]. intros dstObjs Hdst.
    intros env0 _. rewrite classify_lists. split; [done|]. simpl.
    by exists srcObjs, dstObjs. }
  destruct (Hh env I) as [_ Hc]. by rewrite Hrun in Hc.
Qed.

End CompareListings.

(** ** The constructor *)

Section Constructor.

Context {St : Type}.

Lemma constructor_run (cfg : S3LocationSyncRatchetConfig) (s : St) :
  constructor (Some cfg) s =
  (Returned
     (mkRatchet
        (mkConfig (srcS3 cfg) (srcBucket cfg) (srcPrefix cfg)
           (dstS3 cfg) (dstBucket cfg) (dstPrefix cfg)
           (if JS.truthy (maxNumThreads cfg) then maxNumThreads cfg else Some 15)
           (if JS.truthy (maxRetries cfg) then maxRetries cfg else Some 5))), s).
Proof.
  destruct cfg as [a b c d e f [g|] [h|]];
    unfold constructor, notNullOrUndefined, bind, ret, JS.truthy; simpl;
    repeat (match goal with
            | |- context [Z.eqb ?x 0] => destruct (Z.eqb x 0); simpl
            end); reflexivity.
Qed.

(** C9, as the code has it. The constructor rejects a configuration that
    is [null] or [undefined], at construction time and without any I/O;
    a configuration object is accepted whatever fields it lacks, and its
    location fields are kept as they are. *)
Theorem constructor_requires_config (cfg : option S3LocationSyncRatchetConfig) (s : St) :
  (constructor cfg s).2 = s /\
  (cfg = None -> exists e, (constructor cfg s).1 = Threw e) /\
  (forall c, cfg = Some c ->
     exists r, (constructor cfg s).1 = Returned r /\ same_locations (config r) c).
Proof.
  destruct cfg as [c|].
  - rewrite constructor_run. split_and!; [done|done|].
    intros c' [= <-]. eexists. split; [done|]. by repeat split.
  - split_and!; [done| |done]. intros _. by eexists.
Qed.

End Constructor.

Lemma constructor_requires_config_witness :
  (exists e, (constructor (St:=unit) None tt).1 = Threw e) /\
  (exists r, (constructor (St:=unit) (Some empty_config) tt).1 = Returned r /\
     same_locations (config r) empty_config).
Proof.
  split.
  - destruct (constructor_requires_config (St:=unit) None tt) as (_ & Hnone & _).
    apply Hnone. reflexivity.
  - destruct (constructor_requires_config (St:=unit) (Some empty_config) tt)
      as (_ & _ & Hsome).
    apply Hsome. reflexivity.
Defined.

(** C9, as stated, fails: a configuration without any of its required
    fields is constructed without an error. *)
Lemma constructor_accepts_missing_fields :
  ~ (forall cfg : S3LocationSyncRatchetConfig,
       missing_required cfg = true ->
       exists e, (constructor (St:=unit) (Some cfg) tt).1 = Threw e).
Proof.
  intros Hclaim. destruct (Hclaim empty_config eq_refl) as [e He].
  rewrite constructor_run in He. discriminate.
Qed.

Section Defaults.

Context {W : Type} `{ObjectStore W}.

(** C10, as the code has it. The constructor replaces a [maxNumThreads] or
    a [maxRetries] that is absent or [0] by its default, [15] and [5], and
    keeps any other value; so neither is ever [0] or absent in a
    constructed synchronizer. When the [maxRetries] of the caller is not
    negative, [copyObject] makes at least one attempt; when it is negative,
    [copyObject] makes none and sends nothing. *)
Theorem constructor_defaults (cfg : S3LocationSyncRatchetConfig) (env : Env W) :
  exists r,
    constructor (Some cfg) env = (Returned r, env) /\
    (JS.truthy (maxNumThreads cfg) = false -> maxNumThreads (config r) = Some 15) /\
    (JS.truthy (maxRetries cfg) = false -> maxRetries (config r) = Some 5) /\
    (JS.truthy (maxNumThreads cfg) = true ->
       maxNumThreads (config r) = maxNumThreads cfg) /\
    (JS.truthy (maxRetries cfg) = true -> maxRetries (config r) = maxRetries cfg) /\
    JS.truthy (maxNumThreads (config r)) = true /\
    JS.truthy (maxRetries (config r)) = true /\
    (not_negative (maxRetries cfg) ->
       (0 < max_attempts r)%nat /\
       forall fuel key size express l env',
         copyObject_loop r fuel key size express env = (Returned l, env') ->
         1 <= attempts l) /\
    (~ not_negative (maxRetries cfg) ->
       max_attempts r = 0%nat /\
       forall fuel key size express l env',
         copyObject_loop r fuel key size express env = (Returned l, env') ->
         attempts l = 0 /\ env' = env).
Proof.
  eexists. split; [apply constructor_run|]. simpl.
  split_and!; try (by intros ->).
  - by destruct (JS.truthy (maxNumThreads cfg)) eqn:E.
  - by destruct (JS.truthy (maxRetries cfg)) eqn:E.
  - intros Hnn.
    match goal with
    | |- (0 < max_attempts ?r)%nat /\ _ => assert (0 < max_attempts r)%nat as Hpos
    end.
    { unfold max_attempts, remaining_attempts, JS.truthy, not_negative in *. simpl.
      destruct (maxRetries cfg) as [v|]; simpl; [|lia].
      destruct (Z.eqb_spec v 0); simpl; lia. }
    split; [done|]. intros fuel key size express l env' Hl.
    unfold copyObject_loop in Hl.
    match type of Hl with
    | while _ (copy_loop_cond ?r) _ _ _ = _ =>
        destruct (copy_loop_spec r key size express fuel 0 env)
          as (evs & _ & _ & _ & _ & Hpost)
    end.
    rewrite Hl in Hpost. simpl in Hpost. destruct Hpost as (_ & _ & H3 & _).
    specialize (H3 Hpos). lia.
  - intros Hneg.
    match goal with
    | |- max_attempts ?r = 0%nat /\ _ => assert (max_attempts r = 0%nat) as Hzero
    end.
    { unfold max_attempts, remaining_attempts, JS.truthy, not_negative in *. simpl.
      destruct (maxRetries cfg) as [v|]; simpl; [|done].
      destruct (Z.eqb_spec v 0); simpl; lia. }
    split; [done|]. intros fuel key size express l env' Hl.
    unfold copyObject_loop in Hl.
    match type of Hl with
    | while _ (copy_loop_cond ?r) _ _ _ = _ =>
        destruct (copy_loop_spec r key size express fuel 0 env)
          as (evs & _ & _ & _ & _ & Hpost)
    end.
    rewrite Hl in Hpost. simpl in Hpost. destruct Hpost as (H1 & H2 & _).
    unfold max_attempts in Hzero. rewrite Hzero in H2.
    split.
    + unfold attempts in *. destruct (completedCopying l); lia.
    + match type of Hl with
      | while _ (copy_loop_cond ?r) _ _ _ = _ =>
          pose proof (copy_loop_quiet r key size express fuel 0 env Hzero) as Hw
      end.
      rewrite Hl in Hw. by simpl in Hw.
Qed.

End Defaults.

Lemma constructor_defaults_witness :
  exists r,
    constructor (Some example_config) steady_env = (Returned r, steady_env) /\
    maxNumThreads (config r) = Some 15 /\
    maxRetries (config r) = Some 2 /\
    (0 < max_attempts r)%nat.
Proof.
  destruct (constructor_defaults example_config steady_env)
    as (r & Hr & Hthreads & _ & _ & Hretries & _ & _ & Hattempts & _).
  exists r. split_and!.
  - exact Hr.
  - apply Hthreads. reflexivity.
  - apply Hretries. reflexivity.
  - apply Hattempts. simpl. lia.
Defined.

(** C10, as stated, fails: a negative [maxRetries] is truthy, the
    constructor keeps it, and [copyObject] then makes no attempt at all. *)
Lemma negative_maxRetries_makes_no_attempt :
  ~ (forall (cfg : S3LocationSyncRatchetConfig) (r : S3LocationSyncRatchet)
       (l : CopyLoop) (env' : Env Scripted.World),
       constructor (Some cfg) steady_env = (Returned r, steady_env) ->
       copyObject_loop r 5 "src/a.txt" 10 false steady_env = (Returned l, env') ->
       1 <= attempts l).
Proof.
  intros Hclaim.
  specialize (Hclaim negative_retries_config (mkRatchet
                (set_maxNumThreads 15 negative_retries_config))
                (mkCopyLoop false 0) steady_env eq_refl eq_refl).
  vm_compute in Hclaim. by apply Hclaim.
Qed.

(** ** The translated key in the two components *)

(** The key a copy attempt writes to is [dstKey_of], the key the Diff
    Engine looks up. *)
Lemma copy_writes_dstKey_of this key size express c :
  attempt_call this key size express = Some c ->
  written_key c = Some (dstKey_of this key).
Proof.
  unfold attempt_call. destruct (dstS3 (config this)); [|done].
  destruct express; [by intros [= <-]|].
  destruct (srcS3 (config this)); [by intros [= <-]|done].
Qed.

Lemma compare_reads_dstKey_of this (srcObjs dstObjs dstObjs' : gmap string S3Object)
    key rval :
  dstObjs !! dstKey_of this key = dstObjs' !! dstKey_of this key ->
  compare_key this srcObjs dstObjs key rval = compare_key this srcObjs dstObjs' key rval.
Proof. unfold compare_key. by intros ->. Qed.

(** C8 at a destination prefix with a [$$] in it. [replace] reads [$$] in
    its second argument as one [$]: the key under ["src/"] is not
    translated to the key with ["dst$$/"] in its place, and the translated
    key is outside the prefix the destination is listed under. *)
Theorem dollar_in_dstPrefix :
  dstPrefix (config dollar_ratchet) = Some "dst$$/" /\
  dstKey_of dollar_ratchet "src/a.txt" = "dst$/a.txt" /\
  dstKey_of dollar_ratchet "src/a.txt" ≠ "dst$$/" +:+ "a.txt" /\
  JS.startsWith (dstKey_of dollar_ratchet "src/a.txt") "dst$$/" = false.
Proof. by vm_compute. Qed.


(** ** The store in memory *)

Module MemFacts.

Import MemStore.

Lemma next_fault_objects (w : World) : objects (next_fault w).2 = objects w.
Proof. unfold next_fault. by destruct (faults w). Qed.


Lemma list_op_objects (c : S3Client) req (w : World) :
  objects (list_op c req w).2 = objects w.
Proof.
  unfold list_op. pose proof (next_fault_objects w) as Hnf.
  destruct (next_fault w) as [[|] w1]; simpl in *; [done|].
  by destruct (lo_Bucket req), (offset_of (lo_ContinuationToken req)).
Qed.

Lemma put_lookup a etag size (w : World) b :
  a ≠ b -> objects (put a etag size w) !! b = objects w !! b.
Proof. intros Hab. unfold put. simpl. by rewrite lookup_insert_ne. Qed.

Lemma upload_op_frame (c : S3Client) req (w : World) a :
  request_target (Upload c req) ≠ Some a ->
  objects (upload_op c req w).2 !! a = objects w !! a.
Proof.
  intros Ha. unfold upload_op. pose proof (next_fault_objects w) as Hnf.
  destruct (next_fault w) as [[|] w1]; simpl in *; [by rewrite Hnf|].
  destruct (po_Bucket req) as [b|] eqn:Hb; [|simpl; by rewrite Hnf].
  destruct (rs_Bucket (po_Body req)) as [sb|]; [|simpl; by rewrite Hnf].
  destruct (objects w1 !! _) as [src|]; [|simpl; by rewrite Hnf].
  destruct (st_Size src =? po_ContentLength req); [|simpl; by rewrite Hnf].
  rewrite ?Hb in Ha. simpl in Ha. unfold put. simpl.
  rewrite lookup_insert_ne, Hnf; [done|]. intros <-. by apply Ha.
Qed.

Lemma copy_op_frame (c : S3Client) req (w : World) a :
  request_target (CopyObject c req) ≠ Some a ->
  objects (copy_op c req w).2 !! a = objects w !! a.
Proof.
  intros Ha. unfold copy_op. pose proof (next_fault_objects w) as Hnf.
  destruct (next_fault w) as [[|] w1]; simpl in *; [by rewrite Hnf|].
  destruct (co_Bucket req) as [b|] eqn:Hb; [|simpl; by rewrite Hnf].
  destruct (List.find _ _) as [[? src]|]; [|simpl; by rewrite Hnf].
  rewrite ?Hb in Ha. simpl in Ha. unfold put. simpl.
  rewrite lookup_insert_ne, Hnf; [done|]. intros <-. by apply Ha.
Qed.

(** An item of a listing is an object of the store, under the prefix. *)
Lemma elem_of_items (w : World) c b pfx x :
  x ∈ items w c b pfx <->
  exists st, objects w !! (c, b, o_Key x) = Some st /\
    JS.startsWith (o_Key x) pfx = true /\
    x = mkItem (o_Key x) (st_LastModified st) (st_ETag st) (st_Size st) "STANDARD".
Proof.
  unfold items. rewrite list_elem_of_omap. split.
  - intros [[[[c' b'] k] st] [Hin Hitem]]. apply elem_of_map_to_list in Hin.
    unfold item_of in Hitem.
    destruct (bool_decide (c' = c)) eqn:Ec; [|done].
    destruct (bool_decide (b' = b)) eqn:Eb; [|done].
    destruct (JS.startsWith k pfx) eqn:Ek; [|done].
    apply bool_decide_eq_true in Ec as ->. apply bool_decide_eq_true in Eb as ->.
    simpl in Hitem. injection Hitem as <-. simpl. by exists st.
  - intros (st & Hst & Hpre & Hx). exists (c, b, o_Key x, st).
    split; [by apply elem_of_map_to_list|].
    unfold item_of. rewrite !bool_decide_eq_true_2 by done. rewrite Hpre. simpl.
    by rewrite <- Hx.
Qed.

Lemma list_op_contents (c : S3Client) req (w : World) out w' :
  list_op c req w = (inr out, w') ->
  exists b, lo_Bucket req = Some b /\
    forall x, x ∈ Contents out -> x ∈ items w c b (JS.join_elt (lo_Prefix req)).
Proof.
  unfold list_op. destruct (next_fault w) as [[|] w1]; [done|].
  destruct (lo_Bucket req) as [b|]; [|done].
  destruct (offset_of (lo_ContinuationToken req)) as [off|]; [|done].
  intros [= <- <-]. exists b. split; [done|]. simpl. intros x Hx.
  apply elem_of_take in Hx as (i & Hx & _). rewrite lookup_drop in Hx.
  by eapply list_elem_of_lookup_2.
Qed.

End MemFacts.

(** ** What a run leaves alone *)

Section Frame.

Import MemStore.

Variable this : S3LocationSyncRatchet.
Variable a : S3Client * string * string.
Variable v0 : option Stored.
Variable tr0 : list Event.

Lemma untouched_step (env : Env World) (w' : World) (ev : Event) :
  untouched a v0 tr0 env ->
  objects w' !! a = objects (world env) !! a ->
  request_target (ev_call ev) ≠ Some a ->
  untouched a v0 tr0 (mkEnv w' (trace env ++ [ev])).
Proof.
  intros [Hobj (evs & Htr & Hall)] Hw Hev. split; simpl; [by rewrite Hw|].
  exists (evs ++ [ev]). split; [by rewrite Htr, app_assoc|].
  apply Forall_app. split; [done|]. by constructor.
Qed.

Lemma lists_objects_of_items (w0 : World) c b prefix (acc : gmap string S3Object)
    (xs : list ObjectItem) :
  lists_objects_of w0 (Some c) (Some b) prefix acc ->
  (forall x, x ∈ xs -> x ∈ items w0 c b (JS.join_elt prefix)) ->
  lists_objects_of w0 (Some c) (Some b) prefix (foldl record_item acc xs).
Proof.
  revert acc. induction xs as [|x xs IH]; intros acc Hacc Hxs; simpl; [done|].
  apply IH; [|intros y Hy; by apply Hxs, list_elem_of_further].
  intros k o. unfold record_item. rewrite lookup_insert. case_decide as Hk.
  - intros [= <-]. subst k.
    pose proof (Hxs x (list_elem_of_here _ _)) as Hitem.
    apply MemFacts.elem_of_items in Hitem as (st & Hst & Hpre & Hx).
    exists c, b, st. split_and!; try done.
    rewrite Hx. reflexivity.
  - apply Hacc.
Qed.

(** A listing reads the store and changes no object; what it returns are
    objects of the location. *)
Lemma listObjects_frozen (w0 : World) fuel bucket prefix s3 :
  hoare (frozen w0 a v0 tr0) (listObjects fuel bucket prefix s3)
    (ends_in (frozen w0 a v0 tr0) (lists_objects_of w0 s3 bucket prefix)).
Proof.
  unfold listObjects.
  eapply hoare_bind with
    (R := fun l => lists_objects_of w0 s3 bucket prefix (rval l) /\
                   lo_Bucket (params l) = bucket /\ lo_Prefix (params l) = prefix).
  2: { intros l (Hl & _ & _). by apply hoare_ret. }
  apply hoare_while.
  2: { split; [|done]. intros k o Hko. simpl in Hko. by rewrite lookup_empty in Hko. }
  intros l (Hl & Hb & Hp). unfold list_loop_body.
  eapply hoare_bind with
    (R := fun out => exists c b, s3 = Some c /\ bucket = Some b /\
            forall x, x ∈ Contents out -> x ∈ items w0 c b (JS.join_elt prefix)).
  - unfold listObjectsV2. apply hoare_request. intros c env -> [Hobj Hun]. simpl.
    pose proof (MemFacts.list_op_objects c (params l) (world env)) as Hsame.
    split.
    + split; simpl; [by rewrite Hsame|].
      apply untouched_step; [done|by rewrite Hsame|done].
    + destruct (list_op c (params l) (world env)) as [[e|out] w'] eqn:Hop; [done|].
      simpl. destruct (MemFacts.list_op_contents _ _ _ _ _ Hop) as (b & Hbk & Hin).
      exists c, b. rewrite <- Hb, <- Hp. split_and!; [done|done|].
      intros x Hx. specialize (Hin x Hx).
      apply MemFacts.elem_of_items in Hin. apply MemFacts.elem_of_items.
      by rewrite <- Hobj.
  - intros out (c & b & -> & -> & Hin). apply hoare_ret. split_and!.
    + by apply lists_objects_of_items.
    + by destruct (IsTruncated out).
    + by destruct (IsTruncated out).
Qed.

(** A compare reads the stores and changes no object; what it classifies
    are objects of the source location. *)
Lemma compare_frozen (w0 : World) fuel :
  hoare (frozen w0 a v0 tr0) (compareSrcAndDst this fuel)
    (ends_in (frozen w0 a v0 tr0)
       (fun c => forall o, o ∈ needCopy c ++ existed c ++ diff c ->
          source_object this w0 (Key o))).
Proof.
  unfold compareSrcAndDst.
  eapply hoare_bind; [apply hoare_settle, listObjects_frozen|]. intros getSrc HgetSrc.
  eapply hoare_bind; [apply hoare_settle, listObjects_frozen|]. intros getDst _.
  eapply hoare_bind; [apply hoare_await, HgetSrc|]. intros srcObjs Hsrc.
  eapply hoare_bind; [by apply (hoare_await _ (fun _ => True)); destruct getDst|].
  intros dstObjs _.
  eapply hoare_conseq; [apply (classify_hoare this)|done|].
  intros o env [Henv Ho]. split; [done|]. destruct o as [c| |]; [|done|done].
  intros o Hin. destruct (Ho o Hin) as (k & Hk).
  destruct (Hsrc k o Hk) as (sc & sb & st & Hsc & Hsb & Hst & Hpre & ->).
  simpl. by exists sc, sb, st.
Qed.

Lemma compare_untouched fuel :
  hoare (untouched a v0 tr0) (compareSrcAndDst this fuel)
    (ends_in (untouched a v0 tr0) (fun _ => True)).
Proof.
  intros env Henv.
  destruct (compare_frozen (world env) fuel env) as [[_ Hun] _]; [by split|].
  split; [done|]. by destruct (compareSrcAndDst this fuel env).1.
Qed.

Lemma attempt_call_target key size express c :
  attempt_call this key size express = Some c ->
  target this key ≠ Some a -> request_target c ≠ Some a.
Proof.
  unfold attempt_call, target. destruct (dstS3 (config this)) as [dc|]; [|done].
  destruct express.
  - intros [= <-]. simpl. by destruct (dstBucket (config this)).
  - destruct (srcS3 (config this)); [|done].
    intros [= <-]. simpl. by destruct (dstBucket (config this)).
Qed.

(** A copy to another address leaves [a] alone. *)
Lemma copy_attempt_untouched key size express :
  target this key ≠ Some a ->
  hoare (untouched a v0 tr0) (copy_attempt this key size express)
    (ends_in (untouched a v0 tr0) (fun _ => True)).
Proof.
  intros Hkey. unfold copy_attempt. destruct express.
  - unfold copyObject_request. apply hoare_request. intros c env Hc Hun.
    split; [|by destruct (s3_copyObject _ _ _).1].
    apply untouched_step; [done| |]; cbn [ev_call].
    + apply MemFacts.copy_op_frame.
      eapply (attempt_call_target key size true); [|done].
      unfold attempt_call. by rewrite Hc.
    + eapply (attempt_call_target key size true); [|done].
      unfold attempt_call. by rewrite Hc.
  - eapply hoare_bind with (R := fun body =>
      srcS3 (config this) = Some (rs_client body) /\
      rs_Bucket body = srcBucket (config this) /\ rs_Key body = key).
    + unfold createReadStream. destruct (srcS3 (config this)) as [sc|].
      * by apply hoare_ret.
      * apply hoare_throw.
    + intros [sc sb k] (Hsc & Hsb & Hk). simpl in *. subst sb k.
      unfold upload. apply hoare_request. intros c env Hc Hun.
      split; [|by destruct (s3_upload _ _ _).1].
      apply untouched_step; [done| |]; cbn [ev_call].
      * apply MemFacts.upload_op_frame.
        eapply (attempt_call_target key size false); [|done].
        unfold attempt_call. by rewrite Hc, Hsc.
      * eapply (attempt_call_target key size false); [|done].
        unfold attempt_call. by rewrite Hc, Hsc.
Qed.

Lemma copyObject_untouched fuel key size express :
  target this key ≠ Some a ->
  hoare (untouched a v0 tr0) (copyObject this fuel key size express)
    (ends_in (untouched a v0 tr0) (fun _ => True)).
Proof.
  intros Hkey. unfold copyObject, copyObject_loop.
  eapply hoare_bind with (R := fun _ => True); [|intros; by apply hoare_ret].
  apply hoare_while; [|done]. intros l _. unfold copy_loop_body.
  apply hoare_try_catch.
  - eapply hoare_bind; [by apply copy_attempt_untouched|].
    intros; by apply hoare_ret.
  - intros e. by apply hoare_ret.
Qed.

Lemma copyAll_untouched fuel (c : BucketCmpResult) :
  (forall o, o ∈ needCopy c ++ diff c -> target this (Key o) ≠ Some a) ->
  hoare (untouched a v0 tr0) (copyAll this fuel c)
    (ends_in (untouched a v0 tr0) (fun _ => True)).
Proof.
  intros Hc. unfold copyAll.
  eapply hoare_bind.
  { apply hoare_run_parallel. intros o Ho. apply copyObject_untouched, Hc.
    apply elem_of_app. by left. }
  intros _ _. eapply hoare_bind.
  { apply hoare_run_parallel. intros o Ho. apply copyObject_untouched, Hc.
    apply elem_of_app. by right. }
  intros _ _. by apply hoare_ret.
Qed.

(** One run: whatever the store does, an address that no source object is
    copied to is left as it was, and no request writes to it. *)
Lemma startSyncing_untouched (w0 : World) fuel :
  no_counterpart this w0 a ->
  hoare (frozen w0 a v0 tr0) (startSyncing this fuel)
    (fun _ env => untouched a v0 tr0 env).
Proof.
  intros Hno. unfold startSyncing.
  eapply hoare_conseq with (Q' := ends_in (untouched a v0 tr0) (fun _ => True));
    [|done|by intros o env [? _]].
  eapply hoare_bind.
  { eapply hoare_conseq; [apply compare_frozen|done|].
    intros o env [[_ Hun] Ho]. split; [exact Hun|exact Ho]. }
  intros c1 Hc1. simpl in Hc1.
  eapply hoare_bind with (R := fun _ => True); [|intros; by apply hoare_ret].
  destruct (nonempty (needCopy c1) || nonempty (diff c1)); [|by apply hoare_ret].
  eapply hoare_bind; [|intros _ _; apply compare_untouched].
  apply copyAll_untouched. intros o Ho. apply Hno, Hc1.
  rewrite !elem_of_app in *. tauto.
Qed.

End Frame.

Lemma no_counterpart_check this (w : MemStore.World) a :
  no_counterpart_b this w a = true -> no_counterpart this w a.
Proof.
  unfold no_counterpart_b. rewrite forallb_forall.
  intros Hall k (sc & sb & st & Hsc & Hsb & Hst & Hpre) Htarget.
  specialize (Hall (sc, sb, k, st)). simpl in Hall.
  rewrite !bool_decide_eq_true_2, Hpre in Hall by done. simpl in Hall.
  assert (false = true) as Habs; [|done].
  apply Hall. apply list_elem_of_In. by apply elem_of_map_to_list.
Qed.

(** C6. A destination object that no source object is copied to is not
    visited by a sync run: the Diff Engine classifies objects of the source
    location only, no request of the run writes to the address of that
    object (and the synchronizer has no request that deletes), so after
    any number of runs, whatever the store answers, the object is as it
    was. *)
Theorem destination_only_untouched this fuel n (env : Env MemStore.World)
    (a : S3Client * string * string) :
  (forall i, (i < n)%nat ->
     no_counterpart this (world (sync_runs this fuel i env)) a) ->
  MemStore.objects (world (sync_runs this fuel n env)) !! a =
    MemStore.objects (world env) !! a /\
  (exists evs,
     issued env (sync_runs this fuel n env) evs /\
     Forall (fun ev => request_target (ev_call ev) ≠ Some a) evs) /\
  (forall c env1,
     compareSrcAndDst this fuel env = (Returned c, env1) ->
     forall o, o ∈ needCopy c ++ existed c ++ diff c ->
       source_object this (world env) (Key o)).
Proof.
  intros Hno.
  assert (untouched a (MemStore.objects (world env) !! a) (trace env)
            (sync_runs this fuel n env)) as [Hobj Hevs].
  { induction n as [|n IH].
    - split; [done|]. exists []. split; [by rewrite app_nil_r|constructor].
    - simpl. apply (startSyncing_untouched this a _ _
                      (world (sync_runs this fuel n env)) fuel).
      + apply Hno. lia.
      + split; [done|]. apply IH. intros i Hi. apply Hno. lia. }
  split_and!; [done|done|].
  intros c env1 Hc o Ho.
  destruct (compare_frozen this a (MemStore.objects (world env) !! a) (trace env)
              (world env) fuel env) as [_ Hcls].
  { split; [done|]. split; [done|]. exists []. split; [by rewrite app_nil_r|constructor]. }
  rewrite Hc in Hcls. by apply Hcls.
Qed.

Lemma destination_only_untouched_witness :
  MemStore.objects (world (sync_runs example_ratchet 10 2 scenario_env))
    !! (2%nat, "dstb", "dst/c.txt") = Some (MemStore.mkStored "e3" 7 1).
Proof.
  destruct (destination_only_untouched example_ratchet 10 2 scenario_env
              (2%nat, "dstb", "dst/c.txt")) as (Hobj & _ & _).
  - intros i Hi. apply no_counterpart_check.
    destruct i as [|[|i]]; [vm_compute; reflexivity|vm_compute; reflexivity|lia].
  - etrans; [exact Hobj|]. vm_compute. reflexivity.
Defined.

(** ** Listings of the store in memory when nothing fails *)

Module MemListing.

Import MemStore.

Lemma items_of_cons out outs : items_of (out :: outs) = Contents out ++ items_of outs.
Proof. reflexivity. Qed.

Lemma items_of_one out : items_of [out] = Contents out.
Proof. unfold items_of. simpl. apply app_nil_r. Qed.

Lemma offset_of_token (n : nat) : offset_of (Some (token_of n)) = Some n.
Proof.
  unfold offset_of, token_of. rewrite NilEmpty.usu. simpl.
  by rewrite Unsigned.of_to.
Qed.


Lemma omap_length_le {A B} (f : A -> option B) (l : list A) :
  (List.length (omap f l) <= List.length l)%nat.
Proof.
  induction l as [|x l IH]; [done|]. change (omap f (x :: l)) with
    (match f x with Some y => y :: omap f l | None => omap f l end).
  destruct (f x); simpl; lia.
Qed.

Lemma items_length (w : World) c b pfx :
  (List.length (items w c b pfx) <= size (objects w))%nat.
Proof.
  unfold items. etrans; [apply omap_length_le|]. by rewrite length_map_to_list.
Qed.


(** What a view holds under a key. *)
Lemma view_lookup (w : World) c b pfx k o :
  view w c b pfx !! k = Some o <->
  exists st, objects w !! (c, b, k) = Some st /\
    JS.startsWith k pfx = true /\ o = listed_as k st.
Proof.
  assert (lists_objects_of w (Some c) (Some b) (Some pfx) (view w c b pfx)) as Hsound.
  { unfold view. apply lists_objects_of_items; [|done].
    intros k' o' Hk'. by rewrite lookup_empty in Hk'. }
  split.
  - intros Hk. destruct (Hsound k o Hk) as (c' & b' & st & [= <-] & [= <-] & ? & ? & ?).
    by exists st.
  - intros (st & Hst & Hpre & ->).
    assert (mkItem k (st_LastModified st) (st_ETag st) (st_Size st) "STANDARD"
              ∈ items w c b pfx) as Hin.
    { apply MemFacts.elem_of_items. by exists st. }
    assert (keyed (∅ : gmap string S3Object)) as Hk0 by (by intros ? ?).
    destruct (record_items_lookup (items w c b pfx) ∅ Hk0) as (_ & _ & Hsome).
    destruct (Hsome _ Hin) as [o Ho]. simpl in Ho. fold (view w c b pfx) in Ho.
    destruct (Hsound k o Ho) as (c' & b' & st' & [= <-] & [= <-] & Hst' & _ & ->).
    rewrite Ho. by simplify_eq.
Qed.

Lemma view_keyed (w : World) c b pfx : keyed (view w c b pfx).
Proof. intros k o (st & _ & _ & ->)%view_lookup. reflexivity. Qed.

End MemListing.

(** ** Idempotence on the store in memory *)




Section Idempotence.

Import MemStore.

Variable this : S3LocationSyncRatchet.
Variables (sc : S3Client) (sb sp : string) (dc : S3Client) (db dp : string).

Hypothesis Hsc : srcS3 (config this) = Some sc.
Hypothesis Hsb : srcBucket (config this) = Some sb.
Hypothesis Hsp : srcPrefix (config this) = Some sp.
Hypothesis Hdc : dstS3 (config this) = Some dc.
Hypothesis Hdb : dstBucket (config this) = Some db.
Hypothesis Hdp : dstPrefix (config this) = Some dp.
Hypothesis Hnd : no_dollar dp = true.
Hypothesis Hsep : (sc, sb) ≠ (dc, db) \/
  (JS.startsWith sp dp = false /\ JS.startsWith dp sp = false).
Hypothesis Hpos : (0 < max_attempts this)%nat.
























End Idempotence.






(** Three more runs on which every request succeeds and [startSyncing]
    still returns [false]: a negative [maxRetries], which makes no attempt;
    a destination prefix with [$$], whose copies land outside the listed
    prefix; and a source object from the future of the destination clock,
    whose copy stays older than it. *)
Example negative_maxRetries_run :
  exists r,
    constructor (Some negative_retries_config) scenario_env = (Returned r, scenario_env) /\
    (startSyncing r 20 scenario_env).1 = Returned false.
Proof. eexists. split; [apply constructor_run|]. by vm_compute. Qed.

Example dollar_prefix_run :
  (startSyncing dollar_ratchet 20 scenario_env).1 = Returned false.
Proof. by vm_compute. Qed.

Example future_source_run :
  (startSyncing example_ratchet 20 (mkEnv future_world [])).1 = Returned false.
Proof. by vm_compute. Qed.

(** The last scenario of section 8 of the specification: every attempt to
    copy fails (the four requests to write are rejected), the
    run returns [false] and the objects stay classified [needCopy]. *)
Example exhausted_retries_run :
  let w := MemStore.mkWorld (MemStore.objects scenario_world) 100
             [false; false; true; true; true; true] 5 in
  (startSyncing example_ratchet 20 (mkEnv w [])).1 = Returned false /\
  List.length (needCopy (compare_views example_ratchet
     (world (startSyncing example_ratchet 20 (mkEnv w [])).2))) = 2%nat.
Proof. by vm_compute. Qed.

(** * Further properties of the synchronizer *)

(** ** The key translation, in full *)

Lemma string_app_cons x (a b : string) : String x a +:+ b = String x (a +:+ b).
Proof. reflexivity. Qed.

Lemma string_app_assoc (a b c : string) : (a +:+ b) +:+ c = a +:+ b +:+ c.
Proof. induction a as [|x a IH]; [done|]. rewrite !string_app_cons. by f_equal. Qed.

Lemma string_app_length (a b : string) :
  String.length (a +:+ b) = (String.length a + String.length b)%nat.
Proof.
  induction a as [|x a IH]; [done|]. rewrite string_app_cons. simpl. by f_equal.
Qed.

Lemma string_app_same_length (a a' b b' : string) :
  a +:+ b = a' +:+ b' -> String.length a = String.length a' -> a = a' /\ b = b'.
Proof.
  revert a'. induction a as [|x a IH]; intros [|y a']; try done.
  rewrite !string_app_cons. intros [= -> Heq] [= Hlen].
  destruct (IH _ Heq Hlen) as [-> ->]. done.
Qed.

(** What [split_first] finds is the leftmost occurrence. *)
Lemma split_first_leftmost (p s a b : string) :
  JS.split_first p s = Some (a, b) -> leftmost p s a b.
Proof.
  revert a b. induction s as [|c s IH]; intros a b; simpl.
  - destruct (JS.strip p "") as [rest|] eqn:E; [|done].
    intros [= <- <-]. split; [by apply strip_Some in E|]. simpl. lia.
  - destruct (JS.strip p (String c s)) as [rest|] eqn:E.
    + intros [= <- <-]. split; [by apply strip_Some in E|]. simpl. lia.
    + destruct (JS.split_first p s) as [[a0 b0]|] eqn:Es; [|done].
      intros [= <- <-]. destruct (IH _ _ eq_refl) as [Hs Hmin]. split.
      * by rewrite string_app_cons, <- Hs.
      * intros [|c' a'] b' Heq.
        { change ("" +:+ p +:+ b') with (p +:+ b') in Heq.
          rewrite Heq, strip_app in E. done. }
        rewrite string_app_cons in Heq. injection Heq as -> Heq.
        specialize (Hmin _ _ Heq). simpl. lia.
Qed.

(** [split_first] finds nothing only when there is no occurrence. *)
Lemma split_first_None (p s : string) :
  JS.split_first p s = None -> forall a b, s ≠ a +:+ p +:+ b.
Proof.
  induction s as [|c s IH]; simpl.
  - destruct (JS.strip p "") as [rest|] eqn:E; [done|]. intros _ [|c a] b Heq; [|done].
    change ("" +:+ p +:+ b) with (p +:+ b) in Heq. rewrite Heq, strip_app in E. done.
  - destruct (JS.strip p (String c s)) as [rest|] eqn:E; [done|].
    destruct (JS.split_first p s) as [[a0 b0]|] eqn:Es; [done|].
    intros _ [|c' a] b Heq.
    + change ("" +:+ p +:+ b) with (p +:+ b) in Heq. rewrite Heq, strip_app in E. done.
    + rewrite string_app_cons in Heq. injection Heq as -> Heq.
      by apply (IH eq_refl a b).
Qed.

Lemma leftmost_unique (p s a b a' b' : string) :
  leftmost p s a b -> leftmost p s a' b' -> a = a' /\ b = b'.
Proof.
  intros [Hs Hmin] [Hs' Hmin'].
  assert (String.length a = String.length a') as Hlen.
  { pose proof (Hmin _ _ Hs'). pose proof (Hmin' _ _ Hs). lia. }
  rewrite Hs' in Hs. symmetry in Hs.
  destruct (string_app_same_length _ _ _ _ Hs Hlen) as [-> Hrest].
  split; [done|]. by apply string_app_inj_l in Hrest.
Qed.

(** [replace] with a [$]-free replacement, in full. *)
Lemma replace_leftmost (p d s a b : string) :
  no_dollar d = true -> leftmost p s a b -> JS.replace s p d = a +:+ d +:+ b.
Proof.
  intros Hd Hl. unfold JS.replace.
  destruct (JS.split_first p s) as [[a0 b0]|] eqn:E.
  - apply split_first_leftmost in E.
    destruct (leftmost_unique _ _ _ _ _ _ E Hl) as [-> ->].
    by rewrite GetSubstitution_no_dollar.
  - destruct Hl as [Hs _]. by destruct (split_first_None _ _ E a b).
Qed.

Lemma replace_absent (p d s : string) :
  (forall a b, s ≠ a +:+ p +:+ b) -> JS.replace s p d = s.
Proof.
  intros Hno. unfold JS.replace.
  destruct (JS.split_first p s) as [[a0 b0]|] eqn:E; [|done].
  apply split_first_leftmost in E as [Hs _]. by destruct (Hno a0 b0).
Qed.

(** X1. A key in which the source prefix does not occur is translated to
    itself: [copyObject] writes the object under the same key in the
    destination bucket, and [compareSrcAndDst] looks it up under the same
    key. *)
Theorem key_without_srcPrefix_is_kept (this : S3LocationSyncRatchet) (key : string) :
  (forall a b, key ≠ a +:+ JS.ToString (srcPrefix (config this)) +:+ b) ->
  dstKey_of this key = key /\
  (forall size express c,
     attempt_call this key size express = Some c -> written_key c = Some key).
Proof.
  intros Hno.
  assert (dstKey_of this key = key) as Hk by (by apply replace_absent).
  split; [done|]. intros size express c Hc.
  by rewrite (copy_writes_dstKey_of _ _ _ _ _ Hc), Hk.
Qed.

Lemma key_without_srcPrefix_is_kept_witness :
  dstKey_of example_ratchet "other/a.txt" = "other/a.txt" /\
  (forall size express c,
     attempt_call example_ratchet "other/a.txt" size express = Some c ->
     written_key c = Some "other/a.txt").
Proof.
  apply (key_without_srcPrefix_is_kept example_ratchet "other/a.txt").
  intros a b Heq.
  assert (JS.split_first "src/" "other/a.txt" = None) as Hn by reflexivity.
  exact (split_first_None _ _ Hn a b Heq).
Defined.

(** X2. The translation is not anchored at the start of the key: it
    replaces the leftmost occurrence of the source prefix, wherever it is,
    by the destination prefix (when that has no [$]), and leaves the rest of
    the key, later occurrences included, as it is. *)
Theorem translation_replaces_leftmost_occurrence (this : S3LocationSyncRatchet)
    (p d key a b : string) :
  srcPrefix (config this) = Some p ->
  dstPrefix (config this) = Some d ->
  no_dollar d = true ->
  leftmost p key a b ->
  dstKey_of this key = a +:+ d +:+ b.
Proof.
  intros Hp Hd Hnd Hl. unfold dstKey_of. rewrite Hp, Hd. simpl.
  by apply replace_leftmost.
Qed.

Lemma translation_replaces_leftmost_occurrence_witness :
  leftmost "src/" "x/src/src/a" "x/" "src/a" /\
  dstKey_of example_ratchet "x/src/src/a" = "x/" +:+ "dst/" +:+ "src/a".
Proof.
  assert (leftmost "src/" "x/src/src/a" "x/" "src/a") as Hl
    by (by apply split_first_leftmost).
  split; [exact Hl|].
  exact (translation_replaces_leftmost_occurrence example_ratchet "src/" "dst/"
           "x/src/src/a" "x/" "src/a" eq_refl eq_refl eq_refl Hl).
Defined.

(** ** The encoding of [CopySource] *)

Lemma elem_of_all_ascii (c : ascii) : c ∈ all_ascii.
Proof.
  unfold all_ascii. apply list_elem_of_fmap. exists (nat_of_ascii c). split.
  - by rewrite ascii_nat_embedding.
  - apply elem_of_seq. pose proof (nat_ascii_bounded c). lia.
Qed.

Lemma forall_ascii (P : ascii -> bool) :
  forallb P all_ascii = true -> forall c, P c = true.
Proof.
  intros Hall c. rewrite forallb_forall in Hall. apply Hall.
  apply list_elem_of_In, elem_of_all_ascii.
Qed.

(** The escape of a character gives the character back. *)
Lemma escape_inj (c1 c2 : ascii) :
  JS.hex_digit (N_of_ascii c1 / 16) = JS.hex_digit (N_of_ascii c2 / 16) ->
  JS.hex_digit (N_of_ascii c1 mod 16) = JS.hex_digit (N_of_ascii c2 mod 16) ->
  c1 = c2.
Proof.
  intros Hh Hl.
  pose proof (forall_ascii
    (fun a => forallb (fun b =>
       implb (Ascii.eqb (JS.hex_digit (N_of_ascii a / 16))
                        (JS.hex_digit (N_of_ascii b / 16)) &&
              Ascii.eqb (JS.hex_digit (N_of_ascii a mod 16))
                        (JS.hex_digit (N_of_ascii b mod 16)))
             (Ascii.eqb a b)) all_ascii)) as Hall.
  specialize (Hall ltac:(by vm_compute) c1). cbv beta in Hall.
  rewrite forallb_forall in Hall.
  specialize (Hall c2 ltac:(apply list_elem_of_In, elem_of_all_ascii)).
  rewrite Hh, Hl, !Ascii.eqb_refl in Hall. simpl in Hall.
  by apply Ascii.eqb_eq.
Qed.

Lemma encodeURIComponent_inj (s1 s2 : string) :
  JS.encodeURIComponent s1 = JS.encodeURIComponent s2 -> s1 = s2.
Proof.
  revert s2. induction s1 as [|c1 r1 IH]; intros [|c2 r2]; simpl; try done.
  - by destruct (JS.uri_unreserved c2).
  - by destruct (JS.uri_unreserved c1).
  - destruct (JS.uri_unreserved c1) eqn:U1, (JS.uri_unreserved c2) eqn:U2.
    + intros [= -> Hr]. by rewrite (IH _ Hr).
    + intros [= -> _]. by vm_compute in U1.
    + intros [= <- _]. by vm_compute in U2.
    + intros [= Hh Hl Hr]. by rewrite (escape_inj _ _ Hh Hl), (IH _ Hr).
Qed.

Lemma encodeURIComponent_safe (s : string) : uri_safe (JS.encodeURIComponent s) = true.
Proof.
  induction s as [|c r IH]; simpl; [done|].
  destruct (JS.uri_unreserved c) eqn:U; simpl.
  - by rewrite U, IH.
  - rewrite IH, andb_true_r.
    pose proof (forall_ascii (fun c =>
      (JS.uri_unreserved (JS.hex_digit (N_of_ascii c / 16)) &&
       JS.uri_unreserved (JS.hex_digit (N_of_ascii c mod 16)))) ltac:(by vm_compute) c)
      as Hc.
    cbv beta in Hc. apply andb_prop in Hc as [-> ->]. done.
Qed.

(** X4. The [CopySource] of an express copy is a faithful, URL-safe
    encoding of the source: two express copies of one synchronizer with
    the same [CopySource] are copies of the same key, and the [CopySource]
    holds only unreserved characters and [%] escapes (so the [/] between
    bucket and key is escaped too). *)
Theorem express_CopySource_identifies_key (this : S3LocationSyncRatchet)
    (k1 k2 : string) (size1 size2 : Z) (c1 c2 : S3Client) (r1 r2 : CopyObjectRequest) :
  attempt_call this k1 size1 true = Some (CopyObject c1 r1) ->
  attempt_call this k2 size2 true = Some (CopyObject c2 r2) ->
  uri_safe (co_CopySource r1) = true /\
  (co_CopySource r1 = co_CopySource r2 -> k1 = k2).
Proof.
  unfold attempt_call. destruct (dstS3 (config this)) as [dc|]; [|done].
  intros [= <- <-] [= <- <-]. simpl. split; [apply encodeURIComponent_safe|].
  intros Henc%encodeURIComponent_inj. unfold JS.join2 in Henc.
  apply string_app_inj_l in Henc. simpl in Henc. by injection Henc.
Qed.

Lemma express_CopySource_identifies_key_witness :
  uri_safe "srcb%2Fsrc%2Fa%20b.txt" = true /\
  ("srcb%2Fsrc%2Fa%20b.txt" = "srcb%2Fsrc%2Fa%20b.txt" -> "src/a b.txt" = "src/a b.txt").
Proof.
  exact (express_CopySource_identifies_key example_ratchet "src/a b.txt" "src/a b.txt"
           10 10 2%nat 2%nat _ _ eq_refl eq_refl).
Defined.

(** X3. On the keys of the source location the translation is the
    substitution of the prefix, for every destination prefix without [$]:
    it maps them into the destination location, and two of them never to
    the same destination key. *)
Theorem translation_is_injective (this : S3LocationSyncRatchet) (p d k1 k2 : string) :
  srcPrefix (config this) = Some p ->
  dstPrefix (config this) = Some d ->
  no_dollar d = true ->
  JS.startsWith k1 p = true ->
  JS.startsWith k2 p = true ->
  JS.startsWith (dstKey_of this k1) d = true /\
  (dstKey_of this k1 = dstKey_of this k2 -> k1 = k2).
Proof.
  intros Hp Hd Hnd [r1 ->]%startsWith_inv [r2 ->]%startsWith_inv.
  rewrite !(dstKey_of_prefix this p d) by done.
  split; [apply startsWith_app|]. by intros ->%string_app_inj_l.
Qed.

Lemma translation_is_injective_witness :
  JS.startsWith (dstKey_of example_ratchet "src/a.txt") "dst/" = true /\
  (dstKey_of example_ratchet "src/a.txt" = dstKey_of example_ratchet "src/b.txt" ->
   "src/a.txt" = "src/b.txt").
Proof.
  exact (translation_is_injective example_ratchet "src/" "dst/" "src/a.txt" "src/b.txt"
           eq_refl eq_refl eq_refl eq_refl eq_refl).
Defined.

(** ** How the loop of [copyObject] ends *)

Section CopyExit.

Context {W : Type} `{ObjectStore W}.

Variable this : S3LocationSyncRatchet.






End CopyExit.



(** ** What a run throws *)

Section RunErrors.

Context {W : Type} `{ObjectStore W}.

Variable this : S3LocationSyncRatchet.






End RunErrors.


(** ** What a run sends *)

Section RunRequests.

Context {W : Type} `{ObjectStore W}.

Variable this : S3LocationSyncRatchet.
Variable tr0 : list Event.

Lemma only_sync_requests_step (env : Env W) (w' : W) (ev : Event) :
  only_sync_requests this tr0 env ->
  sync_request this (ev_call ev) ->
  only_sync_requests this tr0 (mkEnv w' (trace env ++ [ev])).
Proof.
  intros (evs & Htr & Hall) Hev. exists (evs ++ [ev]). simpl.
  split; [by rewrite Htr, app_assoc|]. apply Forall_app. split; [done|by constructor].
Qed.

(** A listing of one of the two locations sends requests for that
    location only. *)
Lemma listObjects_sync_requests fuel bucket prefix s3 :
  (s3 = srcS3 (config this) /\ bucket = srcBucket (config this) /\
   prefix = srcPrefix (config this)) \/
  (s3 = dstS3 (config this) /\ bucket = dstBucket (config this) /\
   prefix = dstPrefix (config this)) ->
  hoare (only_sync_requests (W:=W) this tr0) (listObjects fuel bucket prefix s3)
    (ends_in (only_sync_requests this tr0) (fun _ => True)).
Proof.
  intros Hloc. unfold listObjects.
  eapply hoare_bind with
    (R := fun l => lo_Bucket (params l) = bucket /\ lo_Prefix (params l) = prefix);
    [|intros; by apply hoare_ret].
  apply hoare_while; [|done]. intros l [Hb Hp]. unfold list_loop_body.
  eapply hoare_bind with (R := fun _ => True).
  - unfold listObjectsV2. apply hoare_request. intros c env -> Henv.
    split; [|by destruct (s3_listObjectsV2 _ _ _).1].
    apply only_sync_requests_step; [done|]. simpl. rewrite Hb, Hp.
    destruct Hloc as [(Hs & -> & ->)|(Hs & -> & ->)]; [left|right]; by rewrite <- Hs.
  - intros out _. apply hoare_ret. by destruct (IsTruncated out).
Qed.

Lemma compare_sync_requests fuel :
  hoare (only_sync_requests (W:=W) this tr0) (compareSrcAndDst this fuel)
    (ends_in (only_sync_requests this tr0) (fun _ => True)).
Proof.
  unfold compareSrcAndDst.
  eapply hoare_bind; [apply hoare_settle, listObjects_sync_requests; by left|].
  intros getSrc _.
  eapply hoare_bind; [apply hoare_settle, listObjects_sync_requests; by right|].
  intros getDst _.
  eapply hoare_bind; [by apply (hoare_await _ (fun _ => True)); destruct getSrc|].
  intros srcObjs _.
  eapply hoare_bind; [by apply (hoare_await _ (fun _ => True)); destruct getDst|].
  intros dstObjs _.
  eapply hoare_conseq; [apply classify_hoare|done|].
  intros o env [Henv _]. split; [done|]. by destruct o.
Qed.

(** The copies of a run are streamed: [cp] calls [copyObject] without its
    third argument. *)
Lemma copyObject_sync_requests fuel key size :
  hoare (only_sync_requests (W:=W) this tr0) (copyObject this fuel key size false)
    (ends_in (only_sync_requests this tr0) (fun _ => True)).
Proof.
  unfold copyObject, copyObject_loop.
  eapply hoare_bind with (R := fun _ => True); [|intros; by apply hoare_ret].
  apply hoare_while; [|done]. intros l _. unfold copy_loop_body.
  apply hoare_try_catch; [|intros e; by apply hoare_ret].
  eapply hoare_bind with (R := fun _ => True); [|intros; by apply hoare_ret].
  unfold copy_attempt.
  eapply hoare_bind with (R := fun body =>
    srcS3 (config this) = Some (rs_client body) /\
    rs_Bucket body = srcBucket (config this) /\ rs_Key body = key).
  - unfold createReadStream. destruct (srcS3 (config this)) as [sc|].
    + by apply hoare_ret.
    + apply hoare_throw.
  - intros body (Hsc & Hsb & Hk). unfold upload. apply hoare_request.
    intros c env Hc Henv. split; [|by destruct (s3_upload _ _ _).1].
    apply only_sync_requests_step; [done|]. simpl. by rewrite Hk.
Qed.

Lemma startSyncing_sync_requests fuel :
  hoare (only_sync_requests (W:=W) this tr0) (startSyncing this fuel)
    (ends_in (only_sync_requests this tr0) (fun _ => True)).
Proof.
  unfold startSyncing.
  eapply hoare_bind; [apply compare_sync_requests|]. intros c1 _.
  eapply hoare_bind with (R := fun _ => True); [|intros; by apply hoare_ret].
  destruct (nonempty (needCopy c1) || nonempty (diff c1)); [|by apply hoare_ret].
  eapply hoare_bind with (R := fun _ => True);
    [|intros _ _; apply compare_sync_requests].
  unfold copyAll.
  eapply hoare_bind.
  { apply hoare_run_parallel. intros o _. apply copyObject_sync_requests. }
  intros _ _. eapply hoare_bind.
  { apply hoare_run_parallel. intros o _. apply copyObject_sync_requests. }
  intros _ _. by apply hoare_ret.
Qed.

End RunRequests.

Section RunRequestsClaim.

Context {W : Type} `{ObjectStore W}.

Variable this : S3LocationSyncRatchet.

(** X8. Whatever the stores answer and however the run ends, the requests
    of [startSyncing] are of three kinds only: listings of the source
    location by the source client, listings of the destination location by
    the destination client, and streamed copies ([upload]) by the
    destination client into the destination bucket, of a source key to its
    translated key. It never sends an express copy, and never writes with
    the source client. *)
Theorem startSyncing_sends_only_its_requests fuel (env : Env W) :
  exists evs,
    issued env (startSyncing this fuel env).2 evs /\
    Forall (fun ev => sync_request this (ev_call ev)) evs /\
    Forall (fun ev => is_express (ev_call ev) = false) evs.
Proof.
  destruct (startSyncing_sync_requests this (trace env) fuel env)
    as [(evs & Htr & Hall) _].
  { exists []. split; [by rewrite app_nil_r|constructor]. }
  exists evs. split_and!; [done|done|].
  eapply Forall_impl; [exact Hall|]. intros ev Hev. simpl in Hev.
  by destruct (ev_call ev).
Qed.

End RunRequestsClaim.

Section RunPhases.

Context {W : Type} `{ObjectStore W}.

Variable this : S3LocationSyncRatchet.

(** X9. The phases of a run. After a first compare that returned [c1],
    the requests of the run are: the listings of that compare; then
    attempts to copy objects of [needCopy c1]; then attempts to copy
    objects of [diff c1]; then the listings of the second compare. No
    object of [existed c1] is copied unless it is in one of the other two
    lists. *)
Theorem startSyncing_phases fuel (env : Env W) (c1 : BucketCmpResult) (env1 : Env W) :
  compareSrcAndDst this fuel env = (Returned c1, env1) ->
  exists evs1 evsN evsD evs2,
    issued env env1 evs1 /\
    issued env (startSyncing this fuel env).2 (evs1 ++ evsN ++ evsD ++ evs2) /\
    listing_only evs1 /\
    attempts_for this (needCopy c1) evsN /\
    attempts_for this (diff c1) evsD /\
    listing_only evs2.
Proof.
  intros Hc1.
  destruct (compare_requests this fuel env) as (evs1 & Hiss1 & Hl1).
  rewrite Hc1 in Hiss1. simpl in Hiss1.
  exists evs1. unfold startSyncing. rewrite (bind_Returned _ _ _ _ _ Hc1).
  destruct (nonempty (needCopy c1) || nonempty (diff c1)).
  2: { exists [], [], []. rewrite !app_nil_r. simpl.
       split_and!; try done; by constructor. }
  unfold copyAll.
  set (cp := fun obj : S3Object => copyObject this fuel (Key obj) (Size obj) false).
  destruct (run_copies this fuel (maxNumThreads (config this)) (needCopy c1) env1)
    as (evsN & HissN & HforN & _).
  fold cp in HissN.
  unfold bind at 1. unfold bind at 1. unfold bind at 1.
  destruct (runBoundedParallelSingleParam cp (needCopy c1) _ env1)
    as [[us|e|] env2] eqn:HrunN; simpl in HissN.
  2,3: exists evsN, [], []; rewrite !app_nil_r; simpl;
       split_and!; try done; try (by constructor); by eapply issued_trans.
  destruct (run_copies this fuel (maxNumThreads (config this)) (diff c1) env2)
    as (evsD & HissD & HforD & _).
  fold cp in HissD.
  unfold bind at 1.
  destruct (runBoundedParallelSingleParam cp (diff c1) _ env2)
    as [[us'|e|] env3] eqn:HrunD; simpl in HissD.
  2,3: exists evsN, evsD, []; rewrite !app_nil_r; simpl;
       split_and!; try done; try (by constructor);
       eapply issued_trans; [done|]; by eapply issued_trans.
  unfold ret at 1.
  destruct (compare_requests this fuel env3) as (evs2 & Hiss2 & Hl2).
  exists evsN, evsD, evs2. split_and!; try done.
  assert (issued env (compareSrcAndDst this fuel env3).2 (evs1 ++ evsN ++ evsD ++ evs2))
    as Hall.
  { eapply issued_trans; [done|]. eapply issued_trans; [done|]. by eapply issued_trans. }
  unfold bind. by destruct (compareSrcAndDst this fuel env3) as [[c2|e|] env4].
Qed.

End RunPhases.

Lemma startSyncing_phases_witness :
  exists evs1 evsN evsD evs2,
    issued one_copy_env (compareSrcAndDst example_ratchet 5 one_copy_env).2 evs1 /\
    issued one_copy_env (startSyncing example_ratchet 5 one_copy_env).2
      (evs1 ++ evsN ++ evsD ++ evs2) /\
    listing_only evs1 /\
    attempts_for example_ratchet [mkS3Object "src/a.txt" "e1" 10 9] evsN /\
    attempts_for example_ratchet [] evsD /\
    listing_only evs2.
Proof.
  exact (startSyncing_phases example_ratchet 5 one_copy_env _ _ eq_refl).
Defined.

(** ** Runs on the store in memory, whatever fails *)

Module MemRuns.

Import MemStore.

Lemma items_objects (w1 w2 : World) c b pfx :
  objects w1 = objects w2 -> items w1 c b pfx = items w2 c b pfx.
Proof. unfold items. by intros ->. Qed.

Lemma view_objects (w1 w2 : World) c b pfx :
  objects w1 = objects w2 -> view w1 c b pfx = view w2 c b pfx.
Proof. unfold view. by intros ->%(items_objects _ _ c b pfx). Qed.

(** An accepted listing request: the page at the offset of its token. *)
Lemma list_op_accepted (c : S3Client) bucket pfx tok (w : World) out w' :
  list_op c (mkListReq bucket pfx tok) w = (inr out, w') ->
  exists b off,
    bucket = Some b /\ offset_of tok = Some off /\
    objects w' = objects w /\ pageSize w' = pageSize w /\
    Contents out = take (S (pageSize w)) (drop off (items w c b (JS.join_elt pfx))) /\
    IsTruncated out =
      (off + S (pageSize w) <? List.length (items w c b (JS.join_elt pfx)))%nat /\
    (IsTruncated out = true ->
     NextContinuationToken out = Some (token_of (off + S (pageSize w)))).
Proof.
  unfold list_op.
  pose proof (MemFacts.next_fault_objects w) as Hobj.
  assert (pageSize (next_fault w).2 = pageSize w) as Hps
    by (unfold next_fault; by destruct (faults w)).
  destruct (next_fault w) as [fail w1]. simpl in *. destruct fail; [done|].
  destruct bucket as [b|]; [|done]. destruct (offset_of tok) as [off|]; [|done].
  intros [= <- <-]. exists b, off. simpl. split_and!; try done.
  by intros ->.
Qed.

(** The pages of a listing that went through hold the items of the
    location from the offset on, and the objects are as they were. *)
Lemma pages_of_items (c : S3Client) bucket pfx tok (w : World) outs r w' :
  pages_of c bucket pfx tok w outs r w' ->
  r = None ->
  forall off, offset_of tok = Some off ->
  exists b, bucket = Some b /\ objects w' = objects w /\
    items_of outs = drop off (items w c b (JS.join_elt pfx)).
Proof.
  induction 1 as [tok w out w' Hop Hlast|tok w out w' outs r w'' Hop Hmore Hrest IH|];
    intros Hr off Htok; [| |done].
  - destruct (list_op_accepted _ _ _ _ _ _ _ Hop)
      as (b & off' & -> & Htok' & Hobj & _ & Hc & Ht & _).
    rewrite Htok in Htok'. injection Htok' as <-.
    exists b. split_and!; [done|done|]. rewrite MemListing.items_of_one, Hc.
    apply take_ge. rewrite length_drop. rewrite Hlast in Ht.
    symmetry in Ht. apply Nat.ltb_ge in Ht. lia.
  - destruct (list_op_accepted _ _ _ _ _ _ _ Hop)
      as (b & off' & -> & Htok' & Hobj & Hps & Hc & Ht & Hnext).
    rewrite Htok in Htok'. injection Htok' as <-.
    specialize (Hnext Hmore).
    destruct (IH Hr (off + S (pageSize w))%nat) as (b' & [= <-] & Hobj' & Hitems).
    { rewrite Hnext. apply MemListing.offset_of_token. }
    exists b. split_and!; [done|congruence|].
    rewrite MemListing.items_of_cons, Hc, Hitems.
    rewrite (items_objects w' w c b _ Hobj), <- drop_drop. apply take_drop.
Qed.

(** A listing that returns has returned the view of its location. *)
Lemma listObjects_returns_view fuel bucket pfx s3 (env : Env World) m env' :
  listObjects fuel bucket pfx s3 env = (Returned m, env') ->
  exists c b, s3 = Some c /\ bucket = Some b /\
    m = view (world env) c b (JS.join_elt pfx) /\
    objects (world env') = objects (world env).
Proof.
  unfold listObjects, bind. destruct s3 as [c|].
  2: { destruct fuel as [|n]; [done|]. by cbn. }
  pose proof (list_loop_sound c bucket pfx fuel None ∅ env) as Hsound.
  destruct (while fuel more (list_loop_body (Some c)) _ env) as [[l|e|] env1];
    [|done|done].
  intros [= <- <-]. destruct Hsound as (outs & Hpages & Hrval).
  destruct (pages_of_items _ _ _ _ _ _ _ _ Hpages eq_refl 0%nat eq_refl)
    as (b & -> & Hobj & Hitems).
  exists c, b. split_and!; [done|done| |done].
  by rewrite Hrval, Hitems.
Qed.

(** A compare that returns has classified the two views. *)
Lemma compare_returns_views this fuel (env : Env World) c env' :
  compareSrcAndDst this fuel env = (Returned c, env') ->
  c = compare_views this (world env) /\
  objects (world env') = objects (world env) /\
  exists sc sb dc db,
    srcS3 (config this) = Some sc /\ srcBucket (config this) = Some sb /\
    dstS3 (config this) = Some dc /\ dstBucket (config this) = Some db.
Proof.
  unfold compareSrcAndDst, bind, settle, await.
  destruct (listObjects fuel (srcBucket _) (srcPrefix _) (srcS3 _) env)
    as [[srcObjs|e1|] env1] eqn:Hsrc; [| |done].
  2: { by destruct (listObjects fuel (dstBucket _) (dstPrefix _) (dstS3 _) env1)
         as [[dstObjs|e2|] env2]. }
  destruct (listObjects fuel (dstBucket _) (dstPrefix _) (dstS3 _) env1)
    as [[dstObjs|e2|] env2] eqn:Hdst; [|done|done].
  unfold ret. rewrite classify_lists. intros [= <- <-].
  apply listObjects_returns_view in Hsrc as (sc & sb & Hsc & Hsb & -> & Hobj1).
  apply listObjects_returns_view in Hdst as (dc & db & Hdc & Hdb & -> & Hobj2).
  split_and!; [|congruence|by exists sc, sb, dc, db].
  unfold compare_views. rewrite Hsc, Hsb, Hdc, Hdb.
  by rewrite (view_objects _ _ dc db _ Hobj1).
Qed.

End MemRuns.





(** ** What a run leaves alone *)


(** ** Objects that are up to date *)

Section NoNeedlessCopy.

Import MemStore.

Variable this : S3LocationSyncRatchet.
Variables (sc : S3Client) (sb sp : string) (dc : S3Client) (db dp : string).

Hypothesis Hsc : srcS3 (config this) = Some sc.
Hypothesis Hsb : srcBucket (config this) = Some sb.
Hypothesis Hsp : srcPrefix (config this) = Some sp.
Hypothesis Hdc : dstS3 (config this) = Some dc.
Hypothesis Hdb : dstBucket (config this) = Some db.
Hypothesis Hdp : dstPrefix (config this) = Some dp.
Hypothesis Hnd : no_dollar dp = true.



End NoNeedlessCopy.


(** ** Where a run writes *)

Section RunFrame.

Import MemStore.

Variable this : S3LocationSyncRatchet.
Variables (sc : S3Client) (sb sp : string) (dc : S3Client) (db dp : string).

Hypothesis Hsc : srcS3 (config this) = Some sc.
Hypothesis Hsb : srcBucket (config this) = Some sb.
Hypothesis Hsp : srcPrefix (config this) = Some sp.
Hypothesis Hdc : dstS3 (config this) = Some dc.
Hypothesis Hdb : dstBucket (config this) = Some db.
Hypothesis Hdp : dstPrefix (config this) = Some dp.
Hypothesis Hnd : no_dollar dp = true.



Hypothesis Hsep : (sc, sb) ≠ (dc, db) \/
  (JS.startsWith sp dp = false /\ JS.startsWith dp sp = false).


End RunFrame.



(** ** More on the listing *)

Section ListerMore.

Context {W : Type} `{ObjectStore W}.



(** X13. [listObjects] has no limit of its own on the number of pages. On
    a store that reports every page as truncated it never returns: for
    every bound [n] it has, after [n] turns of its loop, sent [n] requests
    and is still going on. *)
Theorem listObjects_has_no_page_limit (c : S3Client) bucket prefix (n : nat)
    (env : Env W) :
  (forall req w, exists out w',
     s3_listObjectsV2 c req w = (inr out, w') /\ IsTruncated out = true) ->
  (listObjects n bucket prefix (Some c) env).1 = Diverged /\
  exists evs,
    issued env (listObjects n bucket prefix (Some c) env).2 evs /\
    List.length evs = n /\ listing_only evs.
Proof.
  intros Hmore. unfold listObjects, bind.
  assert (forall (l : ListLoop) (env : Env W), more l = true ->
            (while n more (list_loop_body (Some c)) l env).1 = Diverged /\
            exists evs,
              issued env (while n more (list_loop_body (Some c)) l env).2 evs /\
              List.length evs = n /\ listing_only evs) as Hloop.
  { induction n as [|n IH]; intros l env0 Hl.
    - split; [done|]. exists []. split_and!; [apply issued_refl|done|constructor].
    - rewrite (list_loop_step c n l env0 Hl).
      destruct (Hmore (params l) (world env0)) as (out & w' & -> & Htr).
      rewrite Htr.
      match goal with |- context [while n more _ ?l1 ?e1] =>
        destruct (IH l1 e1 eq_refl) as (Hd & evs & Hiss & Hlen & Hlist) end.
      split; [done|].
      exists (mkEvent (ListObjectsV2 c (params l)) None :: evs). split_and!.
      + unfold issued in *. rewrite Hiss. simpl. by rewrite <- app_assoc.
      + simpl. by rewrite Hlen.
      + by constructor. }
  destruct (Hloop (mkListLoop true ∅ (mkListReq bucket prefix None)) env eq_refl)
    as (Hd & evs & Hiss & Hlen & Hlist).
  destruct (while n more _ _ env) as [[l|e|] env1]; simpl in *; try done.
  split; [done|]. by exists evs.
Qed.

End ListerMore.


Lemma listObjects_has_no_page_limit_witness :
  (listObjects 7 (Some "b") (Some "p/") (Some 1%nat) (mkEnv (tt : Endless.World) [])).1
    = Diverged.
Proof.
  apply (listObjects_has_no_page_limit (W:=Endless.World) 1%nat (Some "b") (Some "p/") 7
           (mkEnv tt [])).
  intros req w. by eexists _, _.
Defined.

(** ** The cost of the copies *)

Section CopyBound.

Context {W : Type} `{ObjectStore W}.

Variable this : S3LocationSyncRatchet.



End CopyBound.

(** ** A source that is mirrored already *)

Section InSync.

Import MemStore.

Variable this : S3LocationSyncRatchet.
Variables (sc : S3Client) (sb sp : string) (dc : S3Client) (db dp : string).

Hypothesis Hsc : srcS3 (config this) = Some sc.
Hypothesis Hsb : srcBucket (config this) = Some sb.
Hypothesis Hsp : srcPrefix (config this) = Some sp.
Hypothesis Hdc : dstS3 (config this) = Some dc.
Hypothesis Hdb : dstBucket (config this) = Some db.
Hypothesis Hdp : dstPrefix (config this) = Some dp.
Hypothesis Hnd : no_dollar dp = true.



End InSync.






(** ** Runs on the store in memory end *)

Module MemEnds.

Import MemStore.

(** From every state the listing of a location has its pages, as many as
    there are items left at most, plus one; they end in a last page or in
    a rejection. *)
Lemma pages_exist (c : S3Client) bucket pfx (n : nat) :
  forall (w : World) tok,
    (forall b off, bucket = Some b -> offset_of tok = Some off ->
       (List.length (items w c b (JS.join_elt pfx)) - off <= n)%nat) ->
    exists outs r w',
      pages_of c bucket pfx tok w outs r w' /\
      objects w' = objects w /\
      (List.length outs <= S n)%nat.
Proof.
  induction n as [|n IH]; intros w tok Hn;
    destruct (list_op c (mkListReq bucket pfx tok) w) as [[e|out] w1] eqn:Hop.
  1,3: exists [], (Some e), w1; split_and!;
       [by apply pages_rejected
       |by rewrite <- (MemFacts.list_op_objects c (mkListReq bucket pfx tok) w), Hop
       |simpl; lia].
  - destruct (MemRuns.list_op_accepted _ _ _ _ _ _ _ Hop)
      as (b & off & Hb & Htok & Hobj & Hps & Hc & Ht & Hnext).
    specialize (Hn b off Hb Htok).
    assert (IsTruncated out = false) as Hlast.
    { rewrite Ht. apply Nat.ltb_ge. lia. }
    exists [out], None, w1. split_and!; [by apply pages_last|done|simpl; lia].
  - destruct (MemRuns.list_op_accepted _ _ _ _ _ _ _ Hop)
      as (b & off & Hb & Htok & Hobj & Hps & Hc & Ht & Hnext).
    pose proof (Hn b off Hb Htok) as Hlen.
    destruct (IsTruncated out) eqn:Hmore.
    + specialize (Hnext eq_refl).
      destruct (IH w1 (NextContinuationToken out)) as (outs & r & w' & Hp & Hobj' & Hl).
      { intros b' off' Hb' Hoff'. rewrite Hb in Hb'. injection Hb' as <-.
        rewrite Hnext, MemListing.offset_of_token in Hoff'. injection Hoff' as <-.
        rewrite (MemRuns.items_objects w1 w c b _ Hobj). lia. }
      exists (out :: outs), r, w'. split_and!; [|congruence|simpl; lia].
      by eapply pages_more.
    + exists [out], None, w1. split_and!; [by apply pages_last|done|simpl; lia].
Qed.

(** A listing ends, and changes no object. *)
Lemma listObjects_ends fuel bucket pfx s3 (env : Env World) :
  (size (objects (world env)) + 1 < fuel)%nat ->
  (listObjects fuel bucket pfx s3 env).1 ≠ Diverged /\
  objects (world (listObjects fuel bucket pfx s3 env).2) = objects (world env).
Proof.
  intros Hfuel. unfold listObjects, bind. destruct s3 as [c|].
  2: { destruct fuel as [|n]; [lia|]. by cbn. }
  destruct (pages_exist c bucket pfx (size (objects (world env))) (world env) None)
    as (outs & r & w' & Hp & Hobj & Hl).
  { intros b off _ _.
    pose proof (MemListing.items_length (world env) c b (JS.join_elt pfx)). lia. }
  destruct env as [w tr]. simpl in *.
  destruct (list_loop_complete c bucket pfx None w outs r w' Hp fuel ∅ tr)
    as (env' & Hw & Hrun); [lia|].
  destruct r as [e|].
  - rewrite Hrun. simpl. split; [done|congruence].
  - destruct Hrun as (l & -> & _). simpl. split; [done|congruence].
Qed.

(** A compare ends, and changes no object. *)
Lemma compare_ends this fuel (env : Env World) :
  (size (objects (world env)) + 1 < fuel)%nat ->
  (compareSrcAndDst this fuel env).1 ≠ Diverged /\
  objects (world (compareSrcAndDst this fuel env).2) = objects (world env).
Proof.
  intros Hfuel. unfold compareSrcAndDst, bind, settle, await.
  destruct (listObjects_ends fuel (srcBucket (config this)) (srcPrefix (config this))
              (srcS3 (config this)) env Hfuel) as [Hend1 Hobj1].
  destruct (listObjects fuel (srcBucket _) (srcPrefix _) (srcS3 _) env)
    as [[srcObjs|e1|] env1]; simpl in *; [| |done];
    (destruct (listObjects_ends fuel (dstBucket (config this)) (dstPrefix (config this))
                 (dstS3 (config this)) env1) as [Hend2 Hobj2]; [by rewrite Hobj1|]);
    destruct (listObjects fuel (dstBucket _) (dstPrefix _) (dstS3 _) env1)
      as [[dstObjs|e2|] env2]; simpl in *; try done;
    unfold ret, throw; rewrite ?classify_lists; simpl; split; try done; congruence.
Qed.

(** A map that differs from another at one key at most has one entry
    more at most. *)
Lemma size_one_more {K A} `{Countable K} (m m' : gmap K A) (t : option K) :
  (forall k, t ≠ Some k -> m' !! k = m !! k) -> (size m' <= size m + 1)%nat.
Proof.
  intros Hsame. destruct t as [a|].
  - assert (delete a m' = delete a m) as Hdel.
    { apply map_eq. intros k. destruct (decide (k = a)) as [->|Hne].
      - by rewrite !lookup_delete_eq.
      - rewrite !lookup_delete_ne by done. apply Hsame. congruence. }
    pose proof (map_size_delete a m') as H1. pose proof (map_size_delete a m) as H2.
    rewrite Hdel in H1. rewrite H1 in H2.
    destruct (m' !! a), (m !! a); unfold id in *; lia.
  - assert (m' = m) as -> by (apply map_eq; intros k; by apply Hsame). lia.
Qed.

(** A copy adds one object at most. *)
Lemma copyObject_size this fuel key sz express (env : Env World) :
  (size (objects (world (copyObject this fuel key sz express env).2)) <=
   size (objects (world env)) + 1)%nat.
Proof.
  apply (size_one_more _ _ (target this key)). intros a Ha.
  destruct (copyObject_untouched this a (objects (world env) !! a) (trace env)
              fuel key sz express Ha env) as [[Hobj _] _]; [|done].
  split; [done|]. exists []. split; [by rewrite app_nil_r|constructor].
Qed.

Lemma run_copies_size this fuel (n : option Z) (objs : list S3Object) :
  forall env : Env World,
    (size (objects (world
       (runBoundedParallelSingleParam
          (fun obj : S3Object => copyObject this fuel (Key obj) (Size obj) false)
          objs n env).2)) <=
     size (objects (world env)) + List.length objs)%nat.
Proof.
  induction objs as [|o objs IH]; intros env; [simpl; lia|].
  cbn [runBoundedParallelSingleParam]. unfold bind at 1.
  pose proof (copyObject_size this fuel (Key o) (Size o) false env) as H1.
  destruct (copyObject this fuel (Key o) (Size o) false env) as [[[]|e|] env1];
    simpl in *; [|lia|lia].
  specialize (IH env1). unfold bind.
  destruct (runBoundedParallelSingleParam _ objs n env1) as [[us|e|] env2];
    simpl in *; lia.
Qed.

Lemma copyAll_size this fuel (cmp : BucketCmpResult) (env : Env World) :
  (size (objects (world (copyAll this fuel cmp env).2)) <=
   size (objects (world env)) + List.length (needCopy cmp) + List.length (diff cmp))%nat.
Proof.
  unfold copyAll. unfold bind at 1.
  pose proof (run_copies_size this fuel (maxNumThreads (config this)) (needCopy cmp) env)
    as H1.
  destruct (runBoundedParallelSingleParam _ (needCopy cmp) _ env) as [[us|e|] env1];
    simpl in *; [|lia|lia].
  pose proof (run_copies_size this fuel (maxNumThreads (config this)) (diff cmp) env1)
    as H2.
  unfold bind.
  destruct (runBoundedParallelSingleParam _ (diff cmp) _ env1) as [[us'|e|] env2];
    simpl in *; lia.
Qed.

(** What a compare asks to copy is no more than there are objects. *)
Lemma to_copy_size this (w : World) :
  (List.length (needCopy (compare_views this w)) +
   List.length (diff (compare_views this w)) <= size (objects w))%nat.
Proof.
  unfold compare_views.
  destruct (srcS3 (config this)) as [sc|]; [|simpl; lia].
  destruct (srcBucket (config this)) as [sb|]; [|simpl; lia].
  destruct (dstS3 (config this)) as [dc|]; [|simpl; lia].
  destruct (dstBucket (config this)) as [db|]; [|simpl; lia].
  match goal with |- context [cmp_of this ?d ?es] =>
    pose proof (three_way_partition this d es) as Hperm end.
  apply Permutation_length in Hperm.
  rewrite !length_app, length_fmap, length_map_to_list in Hperm.
  set (sp := JS.join_elt (srcPrefix (config this))) in *.
  assert (size (view w sc sb sp) <= size (objects w))%nat as Hsize.
  { etrans; [|apply (MemListing.items_length w sc sb sp)].
    unfold view.
    assert (forall xs (acc : gmap string S3Object),
              (size (foldl record_item acc xs) <= size acc + List.length xs)%nat) as Hle.
    { induction xs as [|x xs IH]; intros acc; simpl; [lia|].
      etrans; [apply IH|]. unfold record_item. rewrite map_size_insert.
      destruct (acc !! o_Key x); unfold id; lia. }
    specialize (Hle (items w sc sb sp) ∅).
    by rewrite map_size_empty in Hle. }
  lia.
Qed.

End MemEnds.

(** X23. A run ends. On the store in memory, whatever requests fail and
    however the listings are paged, [startSyncing] returns or throws: it
    is not cut off once the fuel is beyond [maxRetries] and beyond twice
    the number of objects plus two (the turns the loops of its listings
    and copies can take). *)
Theorem startSyncing_ends this fuel (env : Env MemStore.World) :
  (2 * size (MemStore.objects (world env)) + 2 < fuel)%nat ->
  (max_attempts this < fuel)%nat ->
  (startSyncing this fuel env).1 ≠ Diverged.
Proof.
  intros Hfuel Hretries. unfold startSyncing. unfold bind at 1.
  destruct (MemEnds.compare_ends this fuel env) as [Hend1 Hobj1]; [lia|].
  destruct (compareSrcAndDst this fuel env) as [[c1|e1|] env1] eqn:Hc1;
    simpl in *; [|done|done].
  apply MemRuns.compare_returns_views in Hc1 as (-> & _ & _).
  destruct (nonempty _ || nonempty _); [|done].
  unfold bind.
  destruct (copyAll_spec this fuel (compare_views this (world env)) env1)
    as (evs & _ & _ & Hpost).
  pose proof (MemEnds.copyAll_size this fuel (compare_views this (world env)) env1)
    as Hsize.
  pose proof (MemEnds.to_copy_size this (world env)) as Hcopy.
  destruct (copyAll this fuel _ env1) as [[[]|e2|] env2]; simpl in *; [|done|lia].
  destruct (MemEnds.compare_ends this fuel env2) as [Hend2 _];
    [rewrite Hobj1 in Hsize; lia|].
  by destruct (compareSrcAndDst this fuel env2) as [[c2|e3|] env3].
Qed.

Lemma startSyncing_ends_witness :
  (startSyncing example_ratchet 10 (mkEnv faulty_world [])).1 ≠ Diverged.
Proof.
  apply (startSyncing_ends example_ratchet 10 (mkEnv faulty_world [])).
  - vm_compute. lia.
  - vm_compute. lia.
Defined.

(** ** The shared configuration object *)

Section SharedConfig.

Lemma shared_constructor_run (h : Shared.Heap) (a : Shared.Addr)
    (cfg : S3LocationSyncRatchetConfig) :
  h !! a = Some cfg ->
  Shared.constructor (Some a) h =
  (Returned (Shared.mkRatchetRef a),
   <[a := mkConfig (srcS3 cfg) (srcBucket cfg) (srcPrefix cfg)
            (dstS3 cfg) (dstBucket cfg) (dstPrefix cfg)
            (if JS.truthy (maxNumThreads cfg) then maxNumThreads cfg else Some 15)
            (if JS.truthy (maxRetries cfg) then maxRetries cfg else Some 5)]> h).
Proof.
  unfold Shared.Heap in *. intros Ha.
  unfold Shared.constructor, notNullOrUndefined, bind, ret, Shared.read, Shared.assign.
  unfold Shared.Heap in *. simpl. rewrite Ha.
  destruct cfg as [s1 b1 p1 s2 b2 p2 n r]. simpl.
  destruct (JS.truthy n) eqn:Hn; simpl;
    rewrite ?Ha, ?lookup_insert_eq; cbn [maxRetries set_maxNumThreads];
    destruct (JS.truthy r) eqn:Hr; simpl;
    rewrite ?Ha, ?lookup_insert_eq; unfold set_maxRetries, set_maxNumThreads; simpl;
    rewrite ?insert_insert_eq; try done.
  by rewrite insert_id.
Qed.

(** X15. The constructor writes into the object of its caller. After
    [new S3LocationSyncRatchet(config)] the configuration object that was
    passed holds the defaults the constructor filled in, every other
    object is as it was, and the synchronizer works on that very object:
    what its methods find there is what the constructor of the value
    model returns. *)
Theorem constructor_fills_in_the_callers_object (h : Shared.Heap)
    (a : Shared.Addr) (cfg : S3LocationSyncRatchetConfig) :
  h !! a = Some cfg ->
  exists this h' r,
    Shared.constructor (Some a) h = (Returned this, h') /\
    Shared.config_ref this = a /\
    constructor (Some cfg) h = (Returned r, h) /\
    h' !! a = Some (config r) /\
    Shared.snapshot h' this = Some r /\
    (JS.truthy (maxRetries cfg) = false -> maxRetries <$> h' !! a = Some (Some 5)) /\
    (forall a', a' ≠ a -> h' !! a' = h !! a').
Proof.
  intros Ha. eexists _, _, _.
  rewrite (shared_constructor_run h a cfg Ha), constructor_run.
  unfold Shared.Heap in *. split_and!; try done.
  - by rewrite lookup_insert_eq.
  - unfold Shared.snapshot, Shared.Heap. simpl. by rewrite lookup_insert_eq.
  - intros Hr. rewrite lookup_insert_eq. simpl. by rewrite Hr.
  - intros a' Ha'. by rewrite lookup_insert_ne.
Qed.

(** X16. A configuration object is shared, not copied. When two
    synchronizers are built and [updateSrcPrefix] is called on the first,
    the second one works with the new prefix too if it was built from the
    same configuration object, and keeps its own prefix if it was built
    from another object. *)
Theorem prefix_update_reaches_every_holder (h : Shared.Heap) (a1 a2 : Shared.Addr)
    (cfg1 cfg2 : S3LocationSyncRatchetConfig) (p : string) :
  h !! a1 = Some cfg1 ->
  h !! a2 = Some cfg2 ->
  exists r1 r2 h' s1 s2,
    Shared.build_two_update_first a1 a2 p h = (Returned (r1, r2), h') /\
    Shared.snapshot h' r1 = Some s1 /\
    Shared.snapshot h' r2 = Some s2 /\
    srcPrefix (config s1) = Some p /\
    (a1 = a2 -> srcPrefix (config s2) = Some p) /\
    (a1 ≠ a2 -> srcPrefix (config s2) = srcPrefix cfg2).
Proof.
  intros H1 H2. unfold Shared.build_two_update_first.
  pose proof shared_constructor_run as Hrun. unfold Shared.Heap in *.
  rewrite (bind_Returned _ _ _ _ _ (Hrun h a1 cfg1 H1)).
  destruct (decide (a1 = a2)) as [<-|Hne].
  - erewrite bind_Returned; [|apply Hrun, lookup_insert_eq].
    rewrite insert_insert_eq.
    unfold Shared.updateSrcPrefix, Shared.assign, Shared.Heap, bind, ret. simpl.
    rewrite lookup_insert_eq, insert_insert_eq.
    eexists _, _, _, _, _. split; [reflexivity|].
    unfold Shared.snapshot, Shared.Heap. simpl.
    rewrite !lookup_insert_eq. simpl. split_and!; try done.
  - erewrite bind_Returned;
      [|apply Hrun; rewrite lookup_insert_ne by done; exact H2].
    unfold Shared.updateSrcPrefix, Shared.assign, Shared.Heap, bind, ret. simpl.
    rewrite lookup_insert_ne, lookup_insert_eq by done.
    eexists _, _, _, _, _. split; [reflexivity|].
    unfold Shared.snapshot, Shared.Heap. simpl.
    rewrite lookup_insert_eq, lookup_insert_ne, lookup_insert_eq by done. simpl.
    split_and!; try done.
Qed.

End SharedConfig.

Lemma constructor_fills_in_the_callers_object_witness :
  exists this h' r,
    Shared.constructor (Some 7%nat) {[7%nat := backup_config]} = (Returned this, h') /\
    Shared.config_ref this = 7%nat /\
    constructor (Some backup_config) ({[7%nat := backup_config]} : Shared.Heap) =
      (Returned r, {[7%nat := backup_config]}) /\
    h' !! 7%nat = Some (config r) /\
    Shared.snapshot h' this = Some r /\
    (JS.truthy (maxRetries backup_config) = false ->
     maxRetries <$> h' !! 7%nat = Some (Some 5)) /\
    (forall a', a' ≠ 7%nat ->
       h' !! a' = ({[7%nat := backup_config]} : Shared.Heap) !! a').
Proof.
  apply (constructor_fills_in_the_callers_object {[7%nat := backup_config]} 7%nat
           backup_config).
  apply lookup_singleton_eq.
Defined.

Lemma prefix_update_reaches_every_holder_witness :
  exists r1 r2 h' s1 s2,
    Shared.build_two_update_first 7%nat 7%nat "other/" {[7%nat := example_config]} =
      (Returned (r1, r2), h') /\
    Shared.snapshot h' r1 = Some s1 /\
    Shared.snapshot h' r2 = Some s2 /\
    srcPrefix (config s1) = Some "other/" /\
    (7%nat = 7%nat -> srcPrefix (config s2) = Some "other/") /\
    (7%nat ≠ 7%nat -> srcPrefix (config s2) = srcPrefix example_config).
Proof.
  apply (prefix_update_reaches_every_holder {[7%nat := example_config]} 7%nat 7%nat
           example_config example_config "other/"); apply lookup_singleton_eq.
Defined.

(** ** EnvironmentService *)

Section ServiceFacts.

Import Environment.

Context {P T : Type} `{JSValue T}.

Variable this : EnvironmentService P T.

Lemma took_refl (s : State P T) : took s s [].
Proof. unfold took. by rewrite app_nil_r. Qed.

Lemma took_trans (s1 s2 s3 : State P T) evs1 evs2 :
  took s1 s2 evs1 -> took s2 s3 evs2 -> took s1 s3 (evs1 ++ evs2).
Proof. unfold took. intros H1 H2. by rewrite H2, H1, app_assoc. Qed.

(** One turn of the loop: the fetch is answered, or it fails and the
    service waits. The body never throws. *)
Lemma fetch_loop_body_cases name (l : FetchLoop T) (s : State P T) :
  (exists v s',
     fetch_loop_body this name l s = (Returned (mkFetchLoop (tryCount l) v), s') /\
     took s s' [Fetch name None] /\
     readPromiseCache s' = readPromiseCache s) \/
  (exists e s', fetch_loop_body this name l s =
       (Returned (mkFetchLoop (tryCount l + 1) (rval l)), s') /\
     took s s' [Fetch name (Some e);
                Wait (times (tryCount l) (backoffMultiplierMS (cfg this)))] /\
     readPromiseCache s' = readPromiseCache s).
Proof.
  unfold fetch_loop_body, try_catch, bind, fetch, wait, ret.
  destruct (fetchConfig (provider this) name (provider_state s)) as [[e|v] p']; simpl.
  - right. eexists e, _. split; [done|]. unfold took. simpl.
    by rewrite <- app_assoc.
  - left. by eexists v, _.
Qed.

Lemma fetch_loop_schedule name (fuel : nat) :
  forall (l : FetchLoop T) (s : State P T),
  falsy (rval l) = true ->
  1 <= tryCount l ->
  exists evs,
    took s (while fuel (fetch_loop_cond this) (fetch_loop_body this name) l s).2 evs /\
    schedule name (cfg this) (tryCount l) evs /\
    readPromiseCache
      (while fuel (fetch_loop_cond this) (fetch_loop_body this name) l s).2 =
      readPromiseCache s /\
    match (while fuel (fetch_loop_cond this) (fetch_loop_body this name) l s).1 with
    | Returned l' =>
        fetch_loop_cond this l' = false /\
        (falsy (rval l') = false -> exists evs', evs = evs' ++ [Fetch name None]) /\
        (falsy (rval l') = true ->
         (failures evs + Z.to_nat (tryCount l - 1) = max_failures (cfg this) \/
          (evs = [] /\ JS.lt_num (tryCount l) (maxRetries (cfg this)) = false))%nat)
    | Threw _ => False
    | Diverged => True
    end.
Proof.
  induction fuel as [|n IH]; intros l s Hfl Hone.
  { exists []. simpl. split_and!; auto using took_refl. constructor. }
  cbn [while]. destruct (fetch_loop_cond this l) eqn:Hcond.
  2: { exists []. simpl. split_and!; auto using took_refl; [constructor|congruence|].
       intros _. right. split; [done|].
       unfold fetch_loop_cond in Hcond. by rewrite Hfl in Hcond. }
  assert (JS.lt_num (tryCount l) (maxRetries (cfg this)) = true) as Hlt.
  { unfold fetch_loop_cond in Hcond. by apply andb_prop in Hcond as [_ ?]. }
  destruct (fetch_loop_body_cases name l s)
    as [(v & s1 & Hb & Ht & Hc)|(e & s1 & Hb & Ht & Hc)];
    rewrite (bind_Returned _ _ _ _ _ Hb).
  - destruct (falsy v) eqn:Hv.
    + (* a falsy answer: the loop goes on with the same [tryCount] *)
      destruct (IH (mkFetchLoop (tryCount l) v) s1 Hv Hone)
        as (evs & Htook & Hsched & Hcache & Hpost).
      exists (Fetch name None :: evs). split_and!.
      * apply (took_trans _ _ _ _ _ Ht Htook).
      * by constructor.
      * congruence.
      * destruct (while n _ _ _ s1).1 as [l'| |]; simpl in *; [|done|done].
        destruct Hpost as (Hexit & Hlast & Hfail). split_and!; [done| |].
        -- intros Hv'. destruct (Hlast Hv') as (evs' & ->).
           by exists (Fetch name None :: evs').
        -- intros Hf'. left.
           destruct (Hfail Hf') as [Hcount|[-> Hno]]; [done|congruence].
    + (* a truthy answer ends the loop *)
      exists [Fetch name None].
      assert (schedule name (cfg this) (tryCount l) [Fetch name None]) as Hs
        by (constructor; [done|constructor]).
      assert (fetch_loop_cond this (mkFetchLoop (tryCount l) v) = false) as Hstop
        by (unfold fetch_loop_cond; simpl; by rewrite Hv).
      destruct n as [|n]; [by simpl|]. cbn [while]. rewrite Hstop. simpl.
      split_and!; try done; [intros _; by exists []|congruence].
  - destruct (IH (mkFetchLoop (tryCount l + 1) (rval l)) s1 Hfl)
      as (evs & Htook & Hsched & Hcache & Hpost); [simpl; lia|].
    exists (Fetch name (Some e) ::
            Wait (times (tryCount l) (backoffMultiplierMS (cfg this))) :: evs).
    split_and!.
    + apply (took_trans _ _ _ _ _ Ht Htook).
    + by constructor.
    + congruence.
    + destruct (while n _ _ _ s1).1 as [l'| |]; simpl in *; [|done|done].
      destruct Hpost as (Hexit & Hlast & Hfail). split_and!; [done| |].
      * intros Hv. destruct (Hlast Hv) as (evs' & ->).
        by exists (Fetch name (Some e) ::
                   Wait (times (tryCount l) (backoffMultiplierMS (cfg this))) :: evs').
      * intros Hf'. left. unfold failures in *. simpl.
        unfold max_failures, JS.lt_num in *.
        destruct (maxRetries (cfg this)) as [m|]; [|done].
        apply Z.ltb_lt in Hlt.
        destruct (Hfail Hf') as [Hcount|[-> Hno]].
        -- lia.
        -- simpl. apply Z.ltb_ge in Hno. lia.
Qed.

Lemma schedule_failures name c i evs :
  schedule name c i evs ->
  (failures evs <= match Environment.maxRetries c with
                   | Some m => Z.to_nat (m - i)
                   | None => 0
                   end)%nat.
Proof.
  induction 1 as [i|i rest Hlt Hrest IH|i e rest Hlt Hrest IH]; unfold failures in *;
    simpl; [lia|done|].
  unfold JS.lt_num in Hlt. destruct (maxRetries c) as [m|]; [|done].
  apply Z.ltb_lt in Hlt. lia.
Qed.

Lemma getConfigUncached_run fuel name (s : State P T) :
  getConfigUncached this fuel name s =
  match while fuel (fetch_loop_cond this) (fetch_loop_body this name)
          (mkFetchLoop 1 None) s with
  | (Returned l, s') =>
      if falsy (rval l)
      then (Threw (Error "Was unable to fetch config %s even after %d retries"), s')
      else (Returned (rval l), s')
  | (Threw e, s') => (Threw e, s')
  | (Diverged, s') => (Diverged, s')
  end.
Proof.
  unfold getConfigUncached, bind.
  destruct (while fuel _ _ _ s) as [[l|e|] s']; [|done|done].
  by destruct (falsy (rval l)).
Qed.

(** X17. The retry schedule of [getConfigUncached]. Whatever the provider
    does, the steps of a call are fetches of the one name and waits, in
    this order: a fetch is made only while [tryCount < maxRetries]; a
    failed fetch is followed by a wait of [tryCount * backoffMultiplierMS]
    milliseconds (a linear back-off) and then counts [tryCount] up; an
    answered fetch is followed by no wait. Since [tryCount] starts at [1],
    at most [maxRetries - 1] fetches fail. The cache is not touched. *)
Theorem getConfigUncached_follows_schedule fuel name (s : State P T) :
  exists evs,
    took s (getConfigUncached this fuel name s).2 evs /\
    schedule name (cfg this) 1 evs /\
    (failures evs <= max_failures (cfg this))%nat /\
    readPromiseCache (getConfigUncached this fuel name s).2 = readPromiseCache s.
Proof.
  destruct (fetch_loop_schedule name fuel (mkFetchLoop 1 None) s eq_refl)
    as (evs & Htook & Hsched & Hcache & _); [simpl; lia|].
  simpl in Hsched. exists evs. rewrite getConfigUncached_run.
  pose proof (schedule_failures _ _ _ _ Hsched) as Hbound.
  fold (max_failures (cfg this)) in Hbound.
  destruct (while fuel _ _ _ s) as [[l|e|] s']; simpl in *; [|done|done].
  by destruct (falsy (rval l)).
Qed.

(** X18. How [getConfigUncached] ends. When it returns, the value is
    truthy and its last step was an answered fetch. When it throws, it
    throws the error of [throwFormattedErr], after exactly
    [maxRetries - 1] failed fetches: one attempt less than [maxRetries],
    and none at all when [maxRetries] is [1], less, or [undefined]. *)
Theorem getConfigUncached_outcome fuel name (s : State P T) :
  match getConfigUncached this fuel name s with
  | (Returned v, s') =>
      falsy v = false /\ exists evs, took s s' (evs ++ [Fetch name None])
  | (Threw e, s') =>
      e = Error "Was unable to fetch config %s even after %d retries" /\
      exists evs, took s s' evs /\ failures evs = max_failures (cfg this)
  | (Diverged, _) => True
  end.
Proof.
  destruct (fetch_loop_schedule name fuel (mkFetchLoop 1 None) s eq_refl)
    as (evs & Htook & Hsched & Hcache & Hpost); [simpl; lia|].
  rewrite getConfigUncached_run.
  destruct (while fuel _ _ _ s) as [[l|e|] s']; simpl in *; [|done|done].
  destruct Hpost as (Hexit & Hlast & Hfail).
  destruct (falsy (rval l)) eqn:Hv.
  - split; [done|]. exists evs. split; [done|].
    destruct (Hfail eq_refl) as [Hcount|[-> Hno]]; [simpl in Hcount; lia|].
    unfold max_failures, JS.lt_num in *.
    destruct (maxRetries (cfg this)) as [m|]; [|done].
    apply Z.ltb_ge in Hno. unfold failures. simpl. lia.
  - split; [done|]. destruct (Hlast eq_refl) as (evs' & ->). by exists evs'.
Qed.

(** X19. A provider that answers with a falsy value is asked again at
    once, and without end. When every fetch of [name] is answered with a
    falsy value ([null], say) and [maxRetries] is more than [1],
    [getConfigUncached] never ends: for every bound [n] it has, after [n]
    turns of its loop, fetched [n] times without a single wait, and is
    still going on. *)
Theorem getConfigUncached_spins_on_falsy_answers (n : nat) name (s : State P T) :
  (forall p, exists v p',
     fetchConfig (provider this) name p = (inr v, p') /\ falsy v = true) ->
  JS.lt_num 1 (maxRetries (cfg this)) = true ->
  (getConfigUncached this n name s).1 = Diverged /\
  exists evs,
    took s (getConfigUncached this n name s).2 evs /\
    evs = replicate n (Fetch name None).
Proof.
  intros Hnull Hlt. rewrite getConfigUncached_run.
  assert (forall (l : FetchLoop T) (s : State P T),
            falsy (rval l) = true -> tryCount l = 1 ->
            (while n (fetch_loop_cond this) (fetch_loop_body this name) l s).1 =
              Diverged /\
            took s (while n (fetch_loop_cond this) (fetch_loop_body this name) l s).2
              (replicate n (Fetch name None))) as Hloop.
  { assert (forall (l : FetchLoop T) (s0 : State P T), exists v s1,
              fetch_loop_body this name l s0 =
                (Returned (mkFetchLoop (tryCount l) v), s1) /\
              falsy v = true /\ took s0 s1 [Fetch name None]) as Hbody.
    { intros l s0. unfold fetch_loop_body, try_catch, bind, fetch, ret.
      destruct (Hnull (provider_state s0)) as (v & p' & -> & Hv). simpl.
      by eexists v, _. }
    induction n as [|n IH]; intros l s0 Hfl Hone; [split; [done|apply took_refl]|].
    cbn [while].
    assert (fetch_loop_cond this l = true) as ->
      by (unfold fetch_loop_cond; by rewrite Hfl, Hone, Hlt).
    destruct (Hbody l s0) as (v & s1 & Hb & Hv & Ht1).
    rewrite (bind_Returned _ _ _ _ _ Hb).
    destruct (IH (mkFetchLoop (tryCount l) v) s1 Hv Hone) as [Hd Ht].
    split; [exact Hd|].
    apply (took_trans _ _ _ _ _ Ht1 Ht). }
  destruct (Hloop (mkFetchLoop 1 None) s eq_refl eq_refl) as [Hd Ht].
  destruct (while n _ _ _ s) as [[l|e|] s']; simpl in *; try done.
  split; [done|]. by eexists.
Qed.

Lemma getConfig_cached fuel name (s : State P T) p :
  readPromiseCache s !! name = Some p ->
  getConfig this fuel name s = await p s.
Proof.
  intros Hp. unfold getConfig, cache_has, cache_get, bind, ret.
  rewrite bool_decide_eq_true_2 by (by rewrite Hp). simpl. by rewrite Hp.
Qed.

Lemma getConfig_not_cached fuel name (s : State P T) :
  readPromiseCache s !! name = None ->
  getConfig this fuel name s =
  match getConfigUncached this fuel name s with
  | (Returned v, s1) =>
      (Returned v,
       mkState (provider_state s1) (<[name := inr v]> (readPromiseCache s1)) (steps s1))
  | (Threw e, s1) =>
      (Threw e,
       mkState (provider_state s1) (<[name := inl e]> (readPromiseCache s1)) (steps s1))
  | (Diverged, s1) => (Diverged, s1)
  end.
Proof.
  intros Hp. unfold getConfig, cache_has, cache_get, bind, ret.
  rewrite bool_decide_eq_false_2 by (rewrite Hp; by intros [? ?]). simpl.
  unfold settle, cache_set.
  destruct (getConfigUncached this fuel name s) as [[v|e|] s1]; simpl;
    by rewrite ?lookup_insert_eq.
Qed.

(** X20. [getConfig] reads a name once. After a call for [name] has
    settled, with a value or with an error, every later call for [name]
    settles in the same way and takes no step: the provider is not asked
    again, nothing is waited for, and the state is left as it is. A read
    that failed is thus never tried again. *)
Theorem getConfig_reads_a_name_once fuel fuel' name (s : State P T) :
  (getConfig this fuel name s).1 ≠ Diverged ->
  getConfig this fuel' name (getConfig this fuel name s).2 =
  getConfig this fuel name s.
Proof.
  destruct (readPromiseCache s !! name) as [p|] eqn:Hp.
  - intros _. rewrite (getConfig_cached fuel name s p Hp).
    assert ((await p s).2 = s) as -> by (by destruct p).
    by rewrite (getConfig_cached fuel' name s p Hp).
  - rewrite (getConfig_not_cached fuel name s Hp).
    destruct (getConfigUncached this fuel name s) as [[v|e|] s1]; simpl; [| |done];
      intros _.
    + by rewrite (getConfig_cached fuel' name _ (inr v)) by apply lookup_insert_eq.
    + by rewrite (getConfig_cached fuel' name _ (inl e)) by apply lookup_insert_eq.
Qed.

End ServiceFacts.

Lemma getConfigUncached_spins_on_falsy_answers_witness :
  (Environment.getConfigUncached (Environment.mkService null_provider
      Environment.defaultEnvironmentServiceConfig) 9 "db"
      (Environment.mkState tt ∅ [])).1 = Diverged.
Proof.
  apply (getConfigUncached_spins_on_falsy_answers
           (Environment.mkService null_provider
              Environment.defaultEnvironmentServiceConfig) 9 "db"
           (Environment.mkState tt ∅ [])).
  - intros p. by exists None, p.
  - reflexivity.
Defined.

Lemma getConfig_reads_a_name_once_witness :
  Environment.getConfig example_service 5 "db"
    (Environment.getConfig example_service 5 "db" failing_provider_state).2 =
  Environment.getConfig example_service 5 "db" failing_provider_state.
Proof.
  apply (getConfig_reads_a_name_once example_service 5 5 "db" failing_provider_state).
  by vm_compute.
Defined.

Section DefaultService.

Import Environment.

Context {P T : Type} `{JSValue T}.

(** X22. The default configuration allows two attempts, not three. A
    service built without a configuration gets [maxRetries = 3] and
    [backoffMultiplierMS = 500]; when the provider fails every time, a
    read asks it twice, waits 500 ms after the first failure and 1000 ms
    after the second, and then throws. A service cannot be built without
    a provider, nor with [null] for a configuration. *)
Theorem default_service_gives_up_after_two_fetches
    (p : EnvironmentServiceProvider P T) (name : string) (fuel : nat) (s : State P T) :
  (forall st, exists e st', fetchConfig p name st = (inl e, st')) ->
  (3 <= fuel)%nat ->
  exists this e1 e2 e s',
    constructor (Some p) Undefined s = (Returned this, s) /\
    getConfigUncached this fuel name s = (Threw e, s') /\
    took s s' [Fetch name (Some e1); Wait (Some 500);
               Fetch name (Some e2); Wait (Some 1000)] /\
    (exists e', constructor (T:=T) (P:=P) None Undefined s = (Threw e', s)) /\
    (exists e', constructor (Some p) Null s = (Threw e', s)).
Proof.
  intros Hfail Hfuel.
  destruct fuel as [|[|[|n]]]; try lia.
  set (this := mkService p defaultEnvironmentServiceConfig).
  assert (forall (i : Z) (s0 : State P T), exists e s1,
            fetch_loop_body this name (mkFetchLoop i None) s0 =
              (Returned (mkFetchLoop (i + 1) None), s1) /\
            took s0 s1 [Fetch name (Some e); Wait (Some (i * 500))]) as Hbody.
  { intros i s0. unfold fetch_loop_body, try_catch, bind, fetch, wait, ret.
    change (provider this) with p.
    destruct (Hfail (provider_state s0)) as (e & st' & ->). simpl.
    eexists e, _. split; [done|]. unfold took. simpl. by rewrite <- app_assoc. }
  destruct (Hbody 1 s) as (e1 & s1 & Hb1 & Ht1).
  destruct (Hbody 2 s1) as (e2 & s2 & Hb2 & Ht2).
  change (1 + 1) with 2 in Hb1. change (2 + 1) with 3 in Hb2.
  exists this, e1, e2, (Error "Was unable to fetch config %s even after %d retries"), s2.
  split_and!.
  - done.
  - rewrite getConfigUncached_run. cbn [while].
    change (fetch_loop_cond this (mkFetchLoop 1 None)) with true. cbv iota.
    rewrite (bind_Returned _ _ _ _ _ Hb1).
    change (fetch_loop_cond this (mkFetchLoop 2 None)) with true. cbv iota.
    rewrite (bind_Returned _ _ _ _ _ Hb2).
    change (fetch_loop_cond this (mkFetchLoop 3 None)) with false. cbv iota.
    done.
  - pose proof (took_trans _ _ _ _ _ Ht1 Ht2) as Ht. exact Ht.
  - by eexists.
  - by eexists.
Qed.

End DefaultService.

Lemma default_service_gives_up_after_two_fetches_witness :
  exists this e1 e2 e s',
    Environment.constructor (Some unreachable_provider) Environment.Undefined idle_state =
      (Returned this, idle_state) /\
    Environment.getConfigUncached this 5 "db" idle_state = (Threw e, s') /\
    took idle_state s'
      [Environment.Fetch "db" (Some e1); Environment.Wait (Some 500);
       Environment.Fetch "db" (Some e2); Environment.Wait (Some 1000)].
Proof.
  destruct (default_service_gives_up_after_two_fetches unreachable_provider "db" 5
              idle_state)
    as (this & e1 & e2 & e & s' & H1 & H2 & H3 & _).
  - intros st. by eexists _, _.
  - lia.
  - by exists this, e1, e2, e, s'.
Defined.
